(** * void_archives_video: screen classification, latches and region transforms

    A shallow embedding of [main.cpp].

    Conventions of the embedding.
    - [int] is modelled by [Z]; signed overflow is undefined in the source and
      the index computations are written here without wrap-around.
    - [float] is IEEE-754 binary32 with round-to-nearest-even, taken from the
      parametric specification [SpecFloat] at precision 24 and [emax] 128.
      Every operation of a [float] expression rounds to binary32 (no fused
      multiply-add, no extended intermediate precision).
    - [uchar*] is an address into a byte memory [mem]; [Frame->ptr(0,0)] is
      address [0] of the frame's memory, so a sub-image pointer is an offset.
    - The video source, the recognizer, the log and the image files written to
      disk are outside the program; the recognizer is a parameter. *)

From Stdlib Require Import ZArith List Bool Lia String Ascii.
From Stdlib Require Import Floats.SpecFloat.
Import ListNotations.
Open Scope Z_scope.

(** ** binary32 arithmetic *)

Module F32.

Definition prec : Z := 24.
Definition emax : Z := 128.

Definition f32 := spec_float.

Definition add : f32 -> f32 -> f32 := SFadd prec emax.
Definition sub : f32 -> f32 -> f32 := SFsub prec emax.
Definition mul : f32 -> f32 -> f32 := SFmul prec emax.
Definition div : f32 -> f32 -> f32 := SFdiv prec emax.
Definition sqrtf : f32 -> f32 := SFsqrt prec emax.
Definition leb : f32 -> f32 -> bool := SFleb.
Definition ltb : f32 -> f32 -> bool := SFltb.
Definition eqb : f32 -> f32 -> bool := SFeqb.

(** Conversion [int -> float]. *)
Definition of_int (n : Z) : f32 := binary_normalize prec emax n 0 false.

(** A decimal literal [num/den] with the suffix [f]: the binary32 nearest to
    the quotient.  Both integers are exactly representable wherever this is
    used, so the rounded division is the correctly rounded literal. *)
Definition lit (num den : Z) : f32 := div (of_int num) (of_int den).

(** Conversion [(int)x]: truncation toward zero.  Outside the range of [int]
    (and for infinities and NaN) the source is undefined; the model returns
    the value the x86 conversion instruction produces, [INT_MIN]. *)
Definition to_int (x : f32) : Z :=
  match x with
  | S754_zero _ => 0
  | S754_finite s m e =>
      let a := if 0 <=? e then Z.shiftl (Zpos m) e else Z.shiftr (Zpos m) (- e) in
      let v := if s then - a else a in
      if (- 2 ^ 31 <=? v) && (v <? 2 ^ 31) then v else - 2 ^ 31
  | _ => - 2 ^ 31
  end.

Definition zero : f32 := S754_zero false.
Definition one : f32 := Eval vm_compute in of_int 1.
Definition two : f32 := Eval vm_compute in of_int 2.
Definition three : f32 := Eval vm_compute in of_int 3.
Definition four : f32 := Eval vm_compute in of_int 4.
Definition half : f32 := Eval vm_compute in lit 1 2.
Definition c255 : f32 := Eval vm_compute in of_int 255.
Definition c510 : f32 := Eval vm_compute in of_int 510.

End F32.

Abbreviation f32 := F32.f32.

(** ** Small helpers of the source *)

Definition square (x : f32) : f32 := F32.mul x x.

Definition clamp (a lower upper : Z) : Z := Z.min (Z.max a lower) upper.

(** ** Byte memory and [for] loops *)

Definition mem := Z -> Z.

Definition load (M : mem) (p : Z) : Z := M p.

(** A store through a [uchar*] keeps the low eight bits of the value. *)
Definition store (M : mem) (p v : Z) : mem :=
  fun q => if q =? p then v mod 256 else M q.

(** Every cell holds a [uchar]. *)
Definition bytes (M : mem) : Prop := forall p, 0 <= M p < 256.

(** The integers [lo, lo+1, ..., hi-1]. *)
Definition zrange (lo hi : Z) : list Z :=
  map (fun k => lo + Z.of_nat k) (seq 0 (Z.to_nat (hi - lo))).

(** [for (int i = lo; i < hi; i++) s = body i s;] *)
Definition for_ {S : Type} (lo hi : Z) (body : Z -> S -> S) (s : S) : S :=
  fold_left (fun s i => body i s) (zrange lo hi) s.

(** ** The classifier *)

Record test_pixel_t := mk_test_pixel {
  x : Z;
  y : Z;
  Color : Z * Z * Z   (* uchar Color[3] *)
}.

(** [cv::Size] *)
Record Size := mk_Size { width : Z; height : Z }.

Definition Color0 (t : test_pixel_t) : Z := fst (fst (Color t)).
Definition Color1 (t : test_pixel_t) : Z := snd (fst (Color t)).
Definition Color2 (t : test_pixel_t) : Z := snd (Color t).

(** [2.f * (0xff + Observed - Expected) / 510.f - 1.f] *)
Definition channel_delta (Observed Expected : Z) : f32 :=
  F32.sub (F32.div (F32.mul F32.two (F32.of_int (255 + Observed - Expected))) F32.c510) F32.one.

(** One iteration of the loop of [screen_test]: the new value of [Indicator]. *)
Definition screen_test_step (Pixels : mem) (TargetSize : Size) (TestPixelCount : Z)
    (Indicator : f32) (TestPixel : test_pixel_t) : f32 :=
  let Pixel := 3 * (width TargetSize * y TestPixel + x TestPixel) in
  let B := load Pixels (Pixel + 0) in
  let G := load Pixels (Pixel + 1) in
  let R := load Pixels (Pixel + 2) in
  let RDelta := channel_delta R (Color0 TestPixel) in
  let GDelta := channel_delta G (Color1 TestPixel) in
  let BDelta := channel_delta B (Color2 TestPixel) in
  F32.add Indicator
    (F32.div (F32.sqrtf (F32.add (F32.add (square RDelta) (square GDelta)) (square BDelta)))
             (F32.mul F32.three (F32.of_int TestPixelCount))).

(** [Indicator] after the loop.  The array and its count are one list: both
    callers pass [ARRAY_COUNT] of the array. *)
Definition screen_indicator (Frame : mem) (TargetSize : Size) (TestPixels : list test_pixel_t) : f32 :=
  fold_left (screen_test_step Frame TargetSize (Z.of_nat (List.length TestPixels))) TestPixels F32.zero.

(** [1.f - Indicator] *)
Definition screen_confidence (Frame : mem) (TargetSize : Size) (TestPixels : list test_pixel_t) : f32 :=
  F32.sub F32.one (screen_indicator Frame TargetSize TestPixels).

(** [screen_test] with [WITH_VIDEO] 0: [(1.f - Indicator) >= ThresholdConfidence]. *)
Definition screen_test (Frame : mem) (TargetSize : Size) (TestPixels : list test_pixel_t)
    (ThresholdConfidence : f32) : bool :=
  F32.leb ThresholdConfidence (screen_confidence Frame TargetSize TestPixels).

(** ** Region transforms *)

Definition invert_image (M : mem) (Image Width Height Channels Stride : Z) : mem :=
  for_ 0 Height (fun y M =>
    let Row := Image + y * Stride in
    for_ 0 Width (fun x M =>
      for_ 0 Channels (fun Channel M =>
        let Pixel := Row + Channels * x + Channel in
        store M Pixel (255 - load M Pixel)) M) M) M.

(** The new value of one channel in [change_contrast]. *)
Definition contrast_value (Contrast : f32) (p : Z) : Z :=
  let Value :=
    F32.add (F32.mul Contrast (F32.sub (F32.div (F32.of_int p) F32.c255) F32.one)) F32.one in
  clamp (F32.to_int (F32.mul (F32.add Value F32.half) F32.c255)) 0 255.

Definition change_contrast (M : mem) (Image Width Height Channels Stride : Z)
    (Contrast : f32) : mem :=
  for_ 0 Height (fun y M =>
    let Row := Image + y * Stride in
    for_ 0 Width (fun x M =>
      for_ 0 Channels (fun Channel M =>
        let Pixel := Row + Channels * x + Channel in
        store M Pixel (contrast_value Contrast (load M Pixel))) M) M) M.

(** [clamp((int)(0.299f * Pixel[2] + 0.587f * Pixel[1] + 0.114f * Pixel[0]), 0, 255)] *)
Definition gray_value (P0 P1 P2 : Z) : Z :=
  clamp (F32.to_int
           (F32.add (F32.add (F32.mul (F32.lit 299 1000) (F32.of_int P2))
                             (F32.mul (F32.lit 587 1000) (F32.of_int P1)))
                    (F32.mul (F32.lit 114 1000) (F32.of_int P0)))) 0 255.

(** The body of the inner loop of [to_grayscale] at the pixel address [Pixel]:
    [Pixel[0] = Pixel[1] = Pixel[2] = Value]. *)
Definition gray_pixel (Pixel : Z) (M : mem) : mem :=
  let Value := gray_value (load M (Pixel + 0)) (load M (Pixel + 1)) (load M (Pixel + 2)) in
  store (store (store M (Pixel + 2) Value) (Pixel + 1) Value) (Pixel + 0) Value.

Definition to_grayscale (M : mem) (Image Width Height Channels Stride : Z) : mem :=
  for_ 0 Height (fun y M =>
    let Row := Image + y * Stride in
    for_ 0 Width (fun x M => gray_pixel (Row + Channels * x) M) M) M.

(** ** Text post-processing *)

Definition NUL : ascii := Ascii.zero.

(** [isspace] in the "C" locale: space, and the controls 9 to 13. *)
Definition isspace (c : ascii) : bool :=
  let n := nat_of_ascii c in
  ((n =? 32) || ((9 <=? n) && (n <=? 13)))%nat.

(** [replace_char]: the characters of [Str] before its terminator, each
    occurrence of [ToReplace] overwritten by [ReplaceWith]; the returned
    [std::string(Start)] ends at the first zero character of the result. *)
Fixpoint replace_char (Str : string) (ToReplace ReplaceWith : ascii) : string :=
  match Str with
  | EmptyString => EmptyString
  | String c rest =>
      if Ascii.eqb c NUL then EmptyString
      else
        let c' := if Ascii.eqb c ToReplace then ReplaceWith else c in
        if Ascii.eqb c' NUL then EmptyString
        else String c' (replace_char rest ToReplace ReplaceWith)
  end.

(** The storage [trim] walks over: the characters of [String.c_str()], the
    terminator, and the one byte behind the terminator, which the last loop
    of [trim] reads although it is not part of the string.  That byte is
    indeterminate; it is the argument [past]. *)
Definition c_str (s : string) (past : ascii) : list ascii :=
  list_ascii_of_string s ++ [NUL; past].

(** [while (Str[0] && isspace(Str[0])) Str++;] : the storage from the new [Str]. *)
Fixpoint skip_leading (Str : list ascii) : list ascii :=
  match Str with
  | [] => []
  | c :: rest =>
      if negb (Ascii.eqb c NUL) && isspace c then skip_leading rest else Str
  end.

(** [Ptr = Str; while ( *Ptr++ );] : the distance [Ptr - Str] after the loop,
    one more than the position of the first zero character. *)
Fixpoint scan_terminator (Str : list ascii) : nat :=
  match Str with
  | [] => O
  | c :: rest => if Ascii.eqb c NUL then 1%nat else S (scan_terminator rest)
  end.

(** [while (Ptr > Str && !isspace(Ptr[0])) Ptr--;] on the distance [Ptr - Str]. *)
Fixpoint step_back (Str : list ascii) (Ptr : nat) : nat :=
  match Ptr with
  | O => O
  | S Ptr' => if isspace (nth Ptr Str NUL) then Ptr else step_back Str Ptr'
  end.

(** [trim]: [std::string(Str, Ptr - Str)]. *)
Definition trim (s : string) (past : ascii) : string :=
  let Str := skip_leading (c_str s past) in
  let Ptr := step_back Str (scan_terminator Str) in
  string_of_list_ascii (firstn Ptr Str).

(** ** Events and state *)

Inductive event_type_t :=
| EVENT_STIGMATA_SCREEN
| EVENT_WEAPON_SCREEN
| EVENT_DIVINE_KEY_SCREEN
| EVENT_LINEUP_SCREEN
| EVENT_ABYSS_BATTLE
| EVENT_ARENA_BATTLE
| EVENT_VALKYRIE_NAME
| EVENT_VALKYRIE_RANK
| EVENT_WEAPON
| EVENT_STIGMATA
| EVENT_ELF
| EVENT_DIVINE_KEY.

Definition event_type_eqb (a b : event_type_t) : bool :=
  match a, b with
  | EVENT_STIGMATA_SCREEN, EVENT_STIGMATA_SCREEN
  | EVENT_WEAPON_SCREEN, EVENT_WEAPON_SCREEN
  | EVENT_DIVINE_KEY_SCREEN, EVENT_DIVINE_KEY_SCREEN
  | EVENT_LINEUP_SCREEN, EVENT_LINEUP_SCREEN
  | EVENT_ABYSS_BATTLE, EVENT_ABYSS_BATTLE
  | EVENT_ARENA_BATTLE, EVENT_ARENA_BATTLE
  | EVENT_VALKYRIE_NAME, EVENT_VALKYRIE_NAME
  | EVENT_VALKYRIE_RANK, EVENT_VALKYRIE_RANK
  | EVENT_WEAPON, EVENT_WEAPON
  | EVENT_STIGMATA, EVENT_STIGMATA
  | EVENT_ELF, EVENT_ELF
  | EVENT_DIVINE_KEY, EVENT_DIVINE_KEY => true
  | _, _ => false
  end.

(** [event_t]; the field [Type] of the source is [EType] here. *)
Record event_t := mk_event {
  EType : event_type_t;
  Value : string
}.

(** [state_t] without the capture and recognizer handles, and with the two
    function-local static counters of the scan functions. *)
Record state_t := mk_state {
  Width : Z;
  Height : Z;
  Events : list event_t;
  HadStigmataScreenIndicator : bool;
  HadLineupScreenIndicator : bool;
  StigmataFrameIndex : Z;
  LineupFrameIndex : Z
}.

Definition set_Events (State : state_t) (ev : list event_t) : state_t :=
  mk_state (Width State) (Height State) ev
           (HadStigmataScreenIndicator State) (HadLineupScreenIndicator State)
           (StigmataFrameIndex State) (LineupFrameIndex State).

Definition set_HadStigmataScreenIndicator (State : state_t) (b : bool) : state_t :=
  mk_state (Width State) (Height State) (Events State)
           b (HadLineupScreenIndicator State)
           (StigmataFrameIndex State) (LineupFrameIndex State).

Definition set_HadLineupScreenIndicator (State : state_t) (b : bool) : state_t :=
  mk_state (Width State) (Height State) (Events State)
           (HadStigmataScreenIndicator State) b
           (StigmataFrameIndex State) (LineupFrameIndex State).

Definition set_StigmataFrameIndex (State : state_t) (i : Z) : state_t :=
  mk_state (Width State) (Height State) (Events State)
           (HadStigmataScreenIndicator State) (HadLineupScreenIndicator State)
           i (LineupFrameIndex State).

Definition set_LineupFrameIndex (State : state_t) (i : Z) : state_t :=
  mk_state (Width State) (Height State) (Events State)
           (HadStigmataScreenIndicator State) (HadLineupScreenIndicator State)
           (StigmataFrameIndex State) i.

(** [State->Events.push_back(Event)] *)
Definition add_event (State : state_t) (Type_ : event_type_t) (Value_ : string) : state_t :=
  set_Events State (Events State ++ [mk_event Type_ Value_]).

(** [rect_t] *)
Record rect_t := mk_rect { X : Z; Y : Z; RWidth : Z; RHeight : Z }.

(** ** The fingerprints of [main] *)

Definition StigmataScreenThresholdConfidence : f32 := F32.lit 97 100.

Definition StigmataScreenIndicators : list test_pixel_t :=
  [ mk_test_pixel  120 200 (238, 154, 255);
    mk_test_pixel  990 864 (255, 221,  71);
    mk_test_pixel 1350 864 (255, 221,  71);
    mk_test_pixel 1710 864 (255, 221,  71);
    mk_test_pixel 1280 974 (  0, 201, 255) ].

Definition LineupScreenThresholdConfidence : f32 := F32.lit 97 100.

Definition LineupScreenIndicators : list test_pixel_t :=
  [ mk_test_pixel 1762 168 (255, 221,  71);
    mk_test_pixel 1762 390 (255, 221,  71);
    mk_test_pixel 1762 608 (255, 221,  71);
    mk_test_pixel  181  97 (255, 219,  72);
    mk_test_pixel 1520 986 (  0,  90, 126) ].

(** ** The scan functions and the frame loop *)

Section Pipeline.

(** The recognizer: the text [GetUTF8Text] returns after [SetImage] on the
    sub-image at address [SubImage] of the frame memory and [Recognize]. *)
Variable GetUTF8Text : mem -> Z -> Z -> Z -> Z -> Z -> string.

(** The byte found behind the terminator of the temporary string [trim] is
    called on (see [c_str]). *)
Variable past_end : string -> ascii.

(** [trim(replace_char(Str, '\n', ' '))] *)
Definition recognized_text (Str : string) : string :=
  let Replaced := replace_char Str "010"%char " "%char in
  trim Replaced (past_end Replaced).

Definition scan_stigmata_screen (State : state_t) (RefFrame : mem) : state_t * mem :=
  let State := add_event State EVENT_STIGMATA_SCREEN EmptyString in
  let Image := 0 in
  let ImageChannels := 3 in
  let ImageStrideBytes := ImageChannels * Width State in
  let NameBoxWidth := 484 in
  let NameBoxHeight := 72 in
  let NameBox := mk_rect 188 912 NameBoxWidth NameBoxHeight in
  let '(State, RefFrame) :=
    let Box := NameBox in
    let SubImage := Image + ImageChannels * (Width State * Y Box + X Box) in
    let RefFrame := change_contrast RefFrame SubImage NameBoxWidth NameBoxHeight
                      ImageChannels ImageStrideBytes F32.four in
    let RefFrame := invert_image RefFrame SubImage NameBoxWidth NameBoxHeight
                      ImageChannels ImageStrideBytes in
    let RefFrame := to_grayscale RefFrame SubImage NameBoxWidth NameBoxHeight
                      ImageChannels ImageStrideBytes in
    let Str := GetUTF8Text RefFrame SubImage NameBoxWidth NameBoxHeight
                 ImageChannels ImageStrideBytes in
    let Text := recognized_text Str in
    (add_event State EVENT_VALKYRIE_NAME Text, RefFrame) in
  let StigmataBoxWidth := 284 in
  let StigmataBoxHeight := 188 in
  let StigmataBoxes :=
    [ mk_rect  872 550 StigmataBoxWidth StigmataBoxHeight;
      mk_rect 1232 550 StigmataBoxWidth StigmataBoxHeight;
      mk_rect 1592 550 StigmataBoxWidth StigmataBoxHeight ] in
  let '(State, RefFrame) :=
    fold_left (fun '(State, RefFrame) Box =>
      let SubImage := Image + ImageChannels * (Width State * Y Box + X Box) in
      let RefFrame := invert_image RefFrame SubImage StigmataBoxWidth StigmataBoxHeight
                        ImageChannels ImageStrideBytes in
      let RefFrame := change_contrast RefFrame SubImage StigmataBoxWidth StigmataBoxHeight
                        ImageChannels ImageStrideBytes F32.four in
      let Str := GetUTF8Text RefFrame SubImage StigmataBoxWidth StigmataBoxHeight
                   ImageChannels ImageStrideBytes in
      let Text := recognized_text Str in
      (add_event State EVENT_STIGMATA Text, RefFrame))
      StigmataBoxes (State, RefFrame) in
  (set_StigmataFrameIndex State (StigmataFrameIndex State + 1), RefFrame).

Definition scan_lineup_screen (State : state_t) (RefFrame : mem) : state_t * mem :=
  let State := add_event State EVENT_LINEUP_SCREEN EmptyString in
  (set_LineupFrameIndex State (LineupFrameIndex State + 1), RefFrame).

(** The body of the frame loop of [main], from [bool check = true] on.
    [RefFrame] is the frame after the resize to [TargetSize]. *)
Definition main_step (State : state_t) (RefFrame : mem) : state_t :=
  let TargetSize := mk_Size (Width State) (Height State) in
  let check := true in
  let '(State, RefFrame, check) :=
    if check && screen_test RefFrame TargetSize StigmataScreenIndicators
                  StigmataScreenThresholdConfidence
    then
      let check := false in
      if negb (HadStigmataScreenIndicator State) then
        let State := set_HadStigmataScreenIndicator State true in
        let '(State, RefFrame) := scan_stigmata_screen State RefFrame in
        (State, RefFrame, check)
      else (State, RefFrame, check)
    else (set_HadStigmataScreenIndicator State false, RefFrame, check) in
  let '(State, RefFrame, check) :=
    if check && screen_test RefFrame TargetSize LineupScreenIndicators
                  LineupScreenThresholdConfidence
    then
      let check := false in
      if negb (HadLineupScreenIndicator State) then
        let State := set_HadLineupScreenIndicator State true in
        let '(State, RefFrame) := scan_lineup_screen State RefFrame in
        (State, RefFrame, check)
      else (State, RefFrame, check)
    else (set_HadLineupScreenIndicator State false, RefFrame, check) in
  State.

(** The frame loop over the frames the capture delivers. *)
Definition main_loop (State : state_t) (Frames : list mem) : state_t :=
  fold_left main_step Frames State.

End Pipeline.

(** The state [main] enters the loop with.  [HadLineupScreenIndicator] is not
    initialised by [main]; its initial value is the argument. *)
Definition initial_state (HadLineup0 : bool) : state_t :=
  mk_state 1920 1080 [] false HadLineup0 0 0.

(** ** Vocabulary of the statements *)

(** The two fingerprint tags. *)
Inductive tag := Stigmata | Lineup.

(** The verdict of [screen_test] on a frame for a tag. *)
Definition verdict (State : state_t) (t : tag) (RefFrame : mem) : bool :=
  let TargetSize := mk_Size (Width State) (Height State) in
  match t with
  | Stigmata => screen_test RefFrame TargetSize StigmataScreenIndicators
                  StigmataScreenThresholdConfidence
  | Lineup => screen_test RefFrame TargetSize LineupScreenIndicators
                LineupScreenThresholdConfidence
  end.

(** The condition of the [if] that drives the latch of a tag: [check &&
    screen_test(...)].  [check] is [true] at the Stigmata test, and at the
    Lineup test it is [false] exactly when the Stigmata test matched. *)
Definition latch_input (State : state_t) (t : tag) (RefFrame : mem) : bool :=
  match t with
  | Stigmata => verdict State Stigmata RefFrame
  | Lineup => negb (verdict State Stigmata RefFrame) && verdict State Lineup RefFrame
  end.

Definition latch_state (State : state_t) (t : tag) : bool :=
  match t with
  | Stigmata => HadStigmataScreenIndicator State
  | Lineup => HadLineupScreenIndicator State
  end.

Definition entered_event (t : tag) : event_type_t :=
  match t with
  | Stigmata => EVENT_STIGMATA_SCREEN
  | Lineup => EVENT_LINEUP_SCREEN
  end.

Definition is_screen_entered (e : event_t) : bool :=
  event_type_eqb (EType e) EVENT_STIGMATA_SCREEN
  || event_type_eqb (EType e) EVENT_LINEUP_SCREEN.

(** How many events of a type a log holds. *)
Definition count_events (ty : event_type_t) (log : list event_t) : nat :=
  List.length (filter (fun e => event_type_eqb (EType e) ty) log).

(** The events appended between two states of one run. *)
Definition emitted (Before After : state_t) : list event_t :=
  skipn (List.length (Events Before)) (Events After).

(** An anchor whose observed pixel equals the expected color on the three
    channels. *)
Definition exact_match (Frame : mem) (TargetSize : Size) (t : test_pixel_t) : Prop :=
  let Pixel := 3 * (width TargetSize * y t + x t) in
  load Frame (Pixel + 2) = Color0 t /\
  load Frame (Pixel + 1) = Color1 t /\
  load Frame (Pixel + 0) = Color2 t.

(** A channel at maximal distance: 255 observed where 0 is expected, or 0
    observed where 255 is expected. *)
Definition channel_max_distance (Observed Expected : Z) : Prop :=
  (Observed = 255 /\ Expected = 0) \/ (Observed = 0 /\ Expected = 255).

Definition max_distance (Frame : mem) (TargetSize : Size) (t : test_pixel_t) : Prop :=
  let Pixel := 3 * (width TargetSize * y t + x t) in
  channel_max_distance (load Frame (Pixel + 2)) (Color0 t) /\
  channel_max_distance (load Frame (Pixel + 1)) (Color1 t) /\
  channel_max_distance (load Frame (Pixel + 0)) (Color2 t).

(** A frame that shows the expected color at an anchor, and frames built
    from lists of anchors over a black frame. *)
Definition paint (TargetSize : Size) (t : test_pixel_t) (M : mem) : mem :=
  let Pixel := 3 * (width TargetSize * y t + x t) in
  store (store (store M (Pixel + 0) (Color2 t)) (Pixel + 1) (Color1 t)) (Pixel + 2) (Color0 t).

Definition black : mem := fun _ => 0.

Definition frame_showing (TargetSize : Size) (l : list test_pixel_t) : mem :=
  fold_right (paint TargetSize) black l.

Definition FullHD : Size := mk_Size 1920 1080.

Definition white : mem := fun _ => 255.

(** What one anchor at maximal distance adds to [Indicator]:
    [sqrtf(1 + 1 + 1) / (3.f * TestPixelCount)]. *)
Definition max_distance_term (TestPixelCount : Z) : f32 :=
  F32.div (F32.sqrtf (F32.add (F32.add F32.one F32.one) F32.one))
          (F32.mul F32.three (F32.of_int TestPixelCount)).

(** The confidence of a fingerprint of [n] anchors, all at maximal distance. *)
Definition max_distance_confidence (n : nat) : f32 :=
  F32.sub F32.one
    (Nat.iter n (fun Indicator => F32.add Indicator (max_distance_term (Z.of_nat n))) F32.zero).

(** Strictly between [0.4226f] and [0.4227f]. *)
Definition near_0_4226 (c : f32) : bool :=
  F32.ltb (F32.lit 4226 10000) c && F32.ltb c (F32.lit 4227 10000).

(** ** Auxiliary definitions of the proofs *)

(** The loops of [invert_image] and [change_contrast] have one shape: every
    channel of the region is rewritten by a function [g] of its value. *)
Definition channel_loop (g : Z -> Z) (Channels Row x : Z) (M : mem) : mem :=
  for_ 0 Channels (fun Channel M =>
    let Pixel := Row + Channels * x + Channel in
    store M Pixel (g (load M Pixel))) M.

Definition row_loop (g : Z -> Z) (Channels Width Row : Z) (M : mem) : mem :=
  for_ 0 Width (fun x M => channel_loop g Channels Row x M) M.

Definition region_loop (g : Z -> Z) (Channels Width : Z) (M : mem)
    (Image Height Stride : Z) : mem :=
  for_ 0 Height (fun y M => let Row := Image + y * Stride in row_loop g Channels Width Row M) M.

(** The loop of [to_grayscale] over the pixels of one row. *)
Definition gray_row_loop (Channels Width Row : Z) (M : mem) : mem :=
  for_ 0 Width (fun x M => gray_pixel (Row + Channels * x) M) M.

(** [*Pixel = 255 - *Pixel] *)
Definition flip (M : mem) (Pixel : Z) : mem := store M Pixel (255 - load M Pixel).

(** The addresses [invert_image] visits, in the order of its loops. *)
Definition visited (Image Width Height Channels Stride : Z) : list Z :=
  flat_map (fun y =>
    flat_map (fun x =>
      map (fun Channel => Image + y * Stride + Channels * x + Channel) (zrange 0 Channels))
      (zrange 0 Width))
    (zrange 0 Height).

(** The gray levels [v] for which the luma of the gray pixel [(v, v, v)],
    computed in binary32 and truncated, is [v - 1]. *)
Definition lowered_levels : list Z :=
  [37; 61; 74; 93; 111; 122; 148; 186; 215; 222; 233; 244; 253].

Definition lowered (v : Z) : bool := existsb (Z.eqb v) lowered_levels.

(** A list of characters without its leading whitespace. *)
Fixpoint drop_leading_space (l : list ascii) : list ascii :=
  match l with
  | c :: rest => if isspace c then drop_leading_space rest else l
  | [] => []
  end.

(** What the specification asks of the post-processing, in its words: every
    newline replaced by a space, then leading and trailing whitespace
    removed, every other character kept.  It is compared with
    [recognized_text], which is what the source does. *)
Definition normalized_text (s : string) : string :=
  let spaced := map (fun c => if Ascii.eqb c "010"%char then " "%char else c)
                    (list_ascii_of_string s) in
  string_of_list_ascii
    (rev (drop_leading_space (rev (drop_leading_space spaced)))).

(** The number of times the latch of a tag goes from Idle to Active over
    the frames of [run], when it is in the state [had] before them. *)
Fixpoint rising_edges (t : tag) (State : state_t) (had : bool) (run : list mem)
    {struct run} : nat :=
  match run with
  | [] => O
  | F :: rest =>
      ((if latch_input State t F && negb had then 1 else 0)
       + rising_edges t State (latch_input State t F) rest)%nat
  end.

(** A run of frames begins at the start of the stream with the latch Idle,
    or right after a frame that did not drive the latch. *)
Definition run_begins (t : tag) (State : state_t) (pre : list mem) : Prop :=
  (pre = [] /\ latch_state State t = false) \/
  (exists pre' F, pre = pre' ++ [F] /\ latch_input State t F = false).

(** ** Concrete inputs *)

Definition stigmata_frame : mem := frame_showing FullHD StigmataScreenIndicators.

Definition lineup_frame : mem := frame_showing FullHD LineupScreenIndicators.

(** A frame that shows the anchors of both fingerprints. *)
Definition both_frame : mem :=
  frame_showing FullHD (StigmataScreenIndicators ++ LineupScreenIndicators).

(** A recognizer that reads the same line in every box. *)
Definition reads_Kiana : mem -> Z -> Z -> Z -> Z -> Z -> string :=
  fun _ _ _ _ _ _ => String.append "Kiana"%string (String "010"%char EmptyString).

Definition zero_past : string -> ascii := fun _ => NUL.

(** The text [Kiana] followed by two newlines. *)
Definition two_blank_lines : string :=
  String.append "Kiana"%string (String "010"%char (String "010"%char EmptyString)).

(** One pixel with [B = 0], [G = 64], [R = 0] at address 0. *)
Definition green_pixel : mem := store black 1 64.

(** ** The remaining functions of the source *)

(** The four fields [log_timestamp] prints, from the position of the capture
    in milliseconds.  [%] and [/] of C++ truncate toward zero: [Z.rem] and
    [Z.quot]. *)
Record timestamp_t := mk_timestamp {
  hours : Z;
  minutes : Z;
  seconds : Z;
  milliseconds : Z
}.

Definition log_timestamp (timer : Z) : timestamp_t :=
  let milliseconds := Z.rem timer 1000 in
  let timer := Z.quot timer 1000 in
  let seconds := Z.rem timer 60 in
  let timer := Z.quot timer 60 in
  let minutes := Z.rem timer 60 in
  let timer := Z.quot timer 60 in
  let hours := timer in
  mk_timestamp hours minutes seconds milliseconds.

(** [Pixels[3 * Index + 0] = B; Pixels[3 * Index + 1] = G; Pixels[3 * Index + 2] = R;] *)
Definition put_pixel (M : mem) (Pixels Index B G R : Z) : mem :=
  store (store (store M (Pixels + (3 * Index + 0)) B) (Pixels + (3 * Index + 1)) G)
        (Pixels + (3 * Index + 2)) R.

Definition draw_indicator (M : mem) (Pixels Width Height x y : Z) : mem :=
  let R := 0 in
  let G := 255 in
  let B := 0 in
  let size := 32 in
  let min_x := clamp (x - Z.quot size 2) 0 (Width - 1) in
  let max_x := clamp (x + Z.quot size 2) 0 (Width - 1) in
  let min_y := clamp (y - Z.quot size 2) 0 (Height - 1) in
  let max_y := clamp (y + Z.quot size 2) 0 (Height - 1) in
  let M := for_ min_x max_x (fun i M => put_pixel M Pixels (Width * y + i) B G R) M in
  for_ min_y max_y (fun i M => put_pixel M Pixels (Width * i + x) B G R) M.

(** What [printf] prints for [%s]: the characters before the first zero. *)
Fixpoint c_string (s : string) : string :=
  match s with
  | EmptyString => EmptyString
  | String c rest => if Ascii.eqb c NUL then EmptyString else String c (c_string rest)
  end.

(** The lines one event makes [output_events] pass to [OUTPUT]; the default
    case writes to the log only. *)
Definition output_event (Event : event_t) : list string :=
  match EType Event with
  | EVENT_STIGMATA_SCREEN => ["[STIGMATA_SCREEN]"%string]
  | EVENT_STIGMATA => [String.append "Stigmata="%string (c_string (Value Event))]
  | EVENT_VALKYRIE_NAME => [String.append "Valkyrie="%string (c_string (Value Event))]
  | EVENT_LINEUP_SCREEN => ["[LINEUP_SCREEN]"%string]
  | _ => []
  end.

(** [output_events]: the lines written to the standard output, in order. *)
Definition output_events (State : state_t) : list string :=
  flat_map output_event (Events State).

(** ** Vocabulary of the further statements *)

(** The address [a] is a channel of the [Width] x [Height] region at
    [Image] with [Channels] channels and rows [Stride] apart. *)
Definition in_region (Image Width Height Channels Stride a : Z) : Prop :=
  exists y x Channel,
    0 <= y < Height /\ 0 <= x < Width /\ 0 <= Channel < Channels /\
    a = Image + y * Stride + Channels * x + Channel.

(** The address [a] is a channel of a pixel of the box [Box] of a frame
    [FrameWidth] pixels wide. *)
Definition in_box (FrameWidth : Z) (Box : rect_t) (a : Z) : Prop :=
  in_region (3 * (FrameWidth * Y Box + X Box)) (RWidth Box) (RHeight Box) 3
            (3 * FrameWidth) a.

Definition NameBox : rect_t := mk_rect 188 912 484 72.

Definition StigmataBoxes : list rect_t :=
  [ mk_rect 872 550 284 188; mk_rect 1232 550 284 188; mk_rect 1592 550 284 188 ].

(** The events one frame can add to the log: nothing, a Lineup entry, or a
    Stigmata entry with its name and its three slots; a log made of such
    blocks. *)
Inductive frame_block : list event_t -> Prop :=
| block_none : frame_block []
| block_lineup : frame_block [mk_event EVENT_LINEUP_SCREEN EmptyString]
| block_stigmata name t m b :
    frame_block [mk_event EVENT_STIGMATA_SCREEN EmptyString;
                 mk_event EVENT_VALKYRIE_NAME name;
                 mk_event EVENT_STIGMATA t;
                 mk_event EVENT_STIGMATA m;
                 mk_event EVENT_STIGMATA b].

Inductive log_blocks : list event_t -> Prop :=
| log_nil : log_blocks []
| log_app block rest : frame_block block -> log_blocks rest -> log_blocks (block ++ rest).

(** The first character of a text, if any, is not whitespace. *)
Definition no_leading_space (s : string) : Prop :=
  match s with
  | EmptyString => True
  | String c _ => isspace c = false
  end.

(** * Properties *)

(** ** binary32: rounding a positive value never gives zero *)

Lemma digits2_pos_size (p : positive) : digits2_pos p = Pos.size p.
Proof. induction p; simpl; congruence. Qed.

Lemma digits2_pos_lower (p : positive) : 2 ^ (Zpos (digits2_pos p) - 1) <= Zpos p.
Proof.
  rewrite digits2_pos_size.
  pose proof (Pos.size_le p) as H.
  apply Pos2Z.pos_le_pos in H. rewrite Pos2Z.inj_pow in H.
  replace (Zpos (Pos.size p)) with (Zpos (Pos.size p) - 1 + 1) in H by lia.
  rewrite Z.pow_add_r in H by lia.
  change (Zpos p~0) with (2 * Zpos p) in H. lia.
Qed.

Lemma shr_1_m (mrs : shr_record) :
  0 <= shr_m mrs -> shr_m (shr_1 mrs) = shr_m mrs / 2.
Proof.
  destruct mrs as [m r s]; simpl; intros Hm.
  rewrite <- Z.div2_div.
  destruct m as [|[p|p|]|p]; try reflexivity; lia.
Qed.

Lemma iter_pos_shr_m (p : positive) : forall mrs,
  0 <= shr_m mrs -> shr_m (iter_pos shr_1 p mrs) = shr_m mrs / 2 ^ Zpos p.
Proof.
  induction p as [p IH|p IH|]; intros mrs Hm; cbn [iter_pos].
  - assert (H1 : 0 <= shr_m (shr_1 mrs)).
    { rewrite shr_1_m by assumption. apply Z.div_pos; lia. }
    assert (H2 : 0 <= shr_m (iter_pos shr_1 p (shr_1 mrs))).
    { rewrite IH by assumption. apply Z.div_pos; [assumption|]. apply Z.pow_pos_nonneg; lia. }
    rewrite IH by assumption. rewrite IH by assumption. rewrite shr_1_m by assumption.
    rewrite !Z.div_div by (try apply Z.pow_pos_nonneg; lia).
    f_equal. replace (Zpos p~1) with (1 + Zpos p + Zpos p) by lia.
    rewrite !Z.pow_add_r by lia. change (2 ^ 1) with 2. ring.
  - assert (H2 : 0 <= shr_m (iter_pos shr_1 p mrs)).
    { rewrite IH by assumption. apply Z.div_pos; [assumption|]. apply Z.pow_pos_nonneg; lia. }
    rewrite IH by assumption. rewrite IH by assumption.
    rewrite !Z.div_div by (try apply Z.pow_pos_nonneg; lia).
    f_equal. replace (Zpos p~0) with (Zpos p + Zpos p) by lia.
    rewrite Z.pow_add_r by lia. reflexivity.
  - rewrite shr_1_m by assumption. reflexivity.
Qed.

Lemma shr_fexp_pos (m : positive) (e : Z) (l : location) :
  -149 <= e ->
  0 < shr_m (fst (shr_fexp F32.prec F32.emax (Zpos m) e l)) /\
  e <= snd (shr_fexp F32.prec F32.emax (Zpos m) e l).
Proof.
  intros He. unfold shr_fexp, shr, fexp, emin, F32.prec, F32.emax.
  cbn [Zdigits2].
  pose proof (digits2_pos_lower m) as Hd.
  set (d := Zpos (digits2_pos m)) in *.
  assert (Hm : shr_m (shr_record_of_loc (Zpos m) l) = Zpos m).
  { destruct l as [|[| |]]; reflexivity. }
  destruct (Z.max (d + e - 24) (3 - 128 - 24) - e) as [|p|p] eqn:En; cbn [fst snd].
  - rewrite Hm. lia.
  - rewrite iter_pos_shr_m by (rewrite Hm; lia). rewrite Hm. split; [|lia].
    apply Z.div_str_pos. split; [apply Z.pow_pos_nonneg; lia|].
    assert (Zpos p <= d - 1) by lia.
    apply Z.le_trans with (2 ^ (d - 1)); [|assumption].
    apply Z.pow_le_mono_r; lia.
  - rewrite Hm. lia.
Qed.

Lemma round_nearest_even_pos (m : Z) (l : location) :
  0 < m -> exists q, round_nearest_even m l = Zpos q.
Proof.
  intros Hm.
  assert (H : 0 < round_nearest_even m l).
  { destruct l as [|[| |]]; cbn [round_nearest_even]; try lia. destruct (Z.even m); lia. }
  destruct (round_nearest_even m l) as [|q|q]; try lia. now exists q.
Qed.

(** Rounding a positive mantissa at an exponent that is not below [emin]
    never gives zero: the result is finite, of the same sign and with an
    exponent that is not smaller, or an infinity. *)
Lemma binary_round_aux_pos (s : bool) (m : positive) (e : Z) (l : location) :
  -149 <= e ->
  (exists m' e', binary_round_aux F32.prec F32.emax s (Zpos m) e l = S754_finite s m' e' /\ e <= e')
  \/ binary_round_aux F32.prec F32.emax s (Zpos m) e l = S754_infinity s.
Proof.
  intros He. unfold binary_round_aux.
  destruct (shr_fexp_pos m e l He) as [H1 H2].
  destruct (shr_fexp F32.prec F32.emax (Zpos m) e l) as [mrs' e'] eqn:E1. cbn [fst snd] in *.
  destruct (round_nearest_even_pos (shr_m mrs') (loc_of_shr_record mrs') H1) as [q Hq]. rewrite Hq.
  assert (He' : -149 <= e') by lia.
  destruct (shr_fexp_pos q e' loc_Exact He') as [H3 H4].
  destruct (shr_fexp F32.prec F32.emax (Zpos q) e' loc_Exact) as [mrs'' e''] eqn:E2. cbn [fst snd] in *.
  destruct (shr_m mrs'') as [|m2|m2]; try lia.
  destruct (e'' <=? F32.emax - F32.prec).
  - left. exists m2, e''. split; [reflexivity|lia].
  - now right.
Qed.

Lemma of_int_pos (n : positive) :
  (exists m e, F32.of_int (Zpos n) = S754_finite false m e /\ -23 <= e)
  \/ F32.of_int (Zpos n) = S754_infinity false.
Proof.
  unfold F32.of_int, binary_normalize, binary_round, shl_align.
  set (f := fexp F32.prec F32.emax (Zpos (digits2_pos n) + 0)).
  assert (Hf : -23 <= f).
  { unfold f, fexp, emin, F32.prec, F32.emax.
    pose proof (Pos2Z.is_pos (digits2_pos n)). lia. }
  destruct (f - 0) as [|d|d] eqn:Ed.
  - destruct (binary_round_aux_pos false n 0 loc_Exact ltac:(lia)) as [(m' & e' & H & He)|H];
      [left; exists m', e'; split; [exact H|lia] | now right].
  - destruct (binary_round_aux_pos false n 0 loc_Exact ltac:(lia)) as [(m' & e' & H & He)|H];
      [left; exists m', e'; split; [exact H|lia] | now right].
  - destruct (binary_round_aux_pos false (Pos.iter xO n d) f loc_Exact ltac:(lia))
      as [(m' & e' & H & He)|H];
      [left; exists m', e'; split; [exact H|lia] | now right].
Qed.

(** [0 / (3.f * TestPixelCount)] is [+0] for every positive count. *)
Lemma zero_div_three_count (n : positive) :
  F32.div F32.zero (F32.mul F32.three (F32.of_int (Zpos n))) = F32.zero.
Proof.
  destruct (of_int_pos n) as [(m & e & H & He)|H]; rewrite H.
  - unfold F32.mul, F32.three, SFmul.
    destruct (binary_round_aux_pos (xorb false false) (12582912 * m) (-22 + e) loc_Exact
                ltac:(lia)) as [(m' & e' & H' & _)|H']; rewrite H'; reflexivity.
  - reflexivity.
Qed.

(** ** The classifier on exact matches *)

Lemma channel_delta_same (c : Z) : channel_delta c c = F32.zero.
Proof.
  unfold channel_delta. replace (255 + c - c) with 255 by lia. reflexivity.
Qed.

Lemma screen_test_step_exact Frame TargetSize (n : positive) t :
  exact_match Frame TargetSize t ->
  screen_test_step Frame TargetSize (Zpos n) F32.zero t = F32.zero.
Proof.
  intros (H0 & H1 & H2). unfold screen_test_step.
  rewrite H0, H1, H2, !channel_delta_same.
  change (F32.sqrtf (F32.add (F32.add (square F32.zero) (square F32.zero)) (square F32.zero)))
    with F32.zero.
  rewrite zero_div_three_count. reflexivity.
Qed.

Lemma screen_indicator_exact Frame TargetSize (n : positive) l :
  Forall (exact_match Frame TargetSize) l ->
  fold_left (screen_test_step Frame TargetSize (Zpos n)) l F32.zero = F32.zero.
Proof.
  induction 1 as [|t l Ht _ IH]; cbn [fold_left]; [reflexivity|].
  rewrite screen_test_step_exact by assumption. exact IH.
Qed.

(** C7. For every fingerprint and every frame in which each anchor pixel
    shows exactly the expected color on its three channels, [screen_test]
    computes the confidence [1.f - Indicator = 1.0] and reports a match for
    every threshold that is at most 1. *)
Theorem screen_test_exact_match Frame TargetSize TestPixels (Threshold : f32) :
  Forall (exact_match Frame TargetSize) TestPixels ->
  F32.leb Threshold F32.one = true ->
  screen_confidence Frame TargetSize TestPixels = F32.one /\
  screen_test Frame TargetSize TestPixels Threshold = true.
Proof.
  intros Hall Hthr.
  assert (Hc : screen_confidence Frame TargetSize TestPixels = F32.one).
  { unfold screen_confidence, screen_indicator.
    destruct TestPixels as [|t l]; [reflexivity|].
    cbn [List.length]. rewrite Nat2Z.inj_succ, <- Zpos_P_of_succ_nat.
    rewrite screen_indicator_exact by assumption. reflexivity. }
  split; [exact Hc|]. unfold screen_test. rewrite Hc. exact Hthr.
Qed.

Lemma screen_test_exact_match_witness :
  screen_confidence (frame_showing FullHD StigmataScreenIndicators) FullHD
    StigmataScreenIndicators = F32.one /\
  screen_test (frame_showing FullHD StigmataScreenIndicators) FullHD
    StigmataScreenIndicators StigmataScreenThresholdConfidence = true.
Proof.
  apply screen_test_exact_match.
  - repeat constructor.
  - reflexivity.
Defined.

(** ** The classifier at maximal distance *)

Lemma square_channel_delta_max Observed Expected :
  channel_max_distance Observed Expected ->
  square (channel_delta Observed Expected) = F32.one.
Proof. intros [[-> ->]|[-> ->]]; reflexivity. Qed.

Lemma screen_test_step_max Frame TargetSize TestPixelCount Indicator t :
  max_distance Frame TargetSize t ->
  screen_test_step Frame TargetSize TestPixelCount Indicator t
  = F32.add Indicator (max_distance_term TestPixelCount).
Proof.
  intros (H0 & H1 & H2). unfold screen_test_step, max_distance_term.
  rewrite (square_channel_delta_max _ _ H0), (square_channel_delta_max _ _ H1),
    (square_channel_delta_max _ _ H2).
  reflexivity.
Qed.

Lemma screen_indicator_max Frame TargetSize TestPixelCount l : forall Indicator,
  Forall (max_distance Frame TargetSize) l ->
  fold_left (screen_test_step Frame TargetSize TestPixelCount) l Indicator
  = Nat.iter (List.length l)
      (fun Indicator => F32.add Indicator (max_distance_term TestPixelCount)) Indicator.
Proof.
  induction l as [|t l IH]; intros Indicator Hall; [reflexivity|].
  inversion Hall as [|? ? Ht Hl]; subst.
  cbn [fold_left List.length]. rewrite IH by assumption.
  rewrite screen_test_step_max by assumption.
  rewrite Nat.iter_succ_r. reflexivity.
Qed.

Lemma screen_confidence_max Frame TargetSize TestPixels :
  Forall (max_distance Frame TargetSize) TestPixels ->
  screen_confidence Frame TargetSize TestPixels
  = max_distance_confidence (List.length TestPixels).
Proof.
  intros Hall. unfold screen_confidence, screen_indicator, max_distance_confidence.
  now rewrite screen_indicator_max.
Qed.

Lemma max_distance_confidence_upto_64 :
  forallb (fun n => near_0_4226 (max_distance_confidence n)) (seq 1 64) = true.
Proof. vm_compute. reflexivity. Qed.

(** C1, as the code has it.  For every fingerprint of 1 to 64 anchors and
    every frame in which every anchor pixel is at maximal channel-wise
    distance from its expected color, the confidence [1.f - Indicator] lies
    strictly between 0.4226 and 0.4227 (about [1 - sqrt 3 / 3]): the norm
    [sqrt 3] of the three unit deltas is divided by [3], not by [sqrt 3]. *)
Theorem screen_test_max_distance Frame TargetSize TestPixels :
  (1 <= List.length TestPixels <= 64)%nat ->
  Forall (max_distance Frame TargetSize) TestPixels ->
  near_0_4226 (screen_confidence Frame TargetSize TestPixels) = true.
Proof.
  intros Hlen Hall. rewrite screen_confidence_max by assumption.
  pose proof max_distance_confidence_upto_64 as H.
  rewrite forallb_forall in H. apply H. apply in_seq. lia.
Qed.

Lemma screen_test_max_distance_witness :
  near_0_4226 (screen_confidence white FullHD [mk_test_pixel 0 0 (0, 0, 0)]) = true.
Proof.
  apply screen_test_max_distance.
  - simpl. lia.
  - repeat constructor.
Defined.

(** C1, as stated, fails: one anchor expecting black on a white frame is at
    maximal distance on its three channels, and the confidence is the
    binary32 number [14181772 * 2^-25 = 0.42264974...], which is not [0.0]. *)
Lemma screen_test_max_distance_not_zero :
  Forall (max_distance white FullHD) [mk_test_pixel 0 0 (0, 0, 0)] /\
  screen_confidence white FullHD [mk_test_pixel 0 0 (0, 0, 0)]
  = S754_finite false 14181772 (-25) /\
  F32.eqb (screen_confidence white FullHD [mk_test_pixel 0 0 (0, 0, 0)]) F32.zero = false.
Proof.
  split; [|split].
  - repeat constructor.
  - vm_compute. reflexivity.
  - vm_compute. reflexivity.
Qed.

(** ** [for] loops *)

Lemma In_zrange (lo hi i : Z) : In i (zrange lo hi) <-> lo <= i < hi.
Proof.
  unfold zrange. rewrite in_map_iff. split.
  - intros (k & <- & Hk). apply in_seq in Hk. lia.
  - intros Hi. exists (Z.to_nat (i - lo)). split; [lia|]. apply in_seq. lia.
Qed.

Lemma zrange_nil (lo hi : Z) : hi <= lo -> zrange lo hi = [].
Proof. intros H. unfold zrange. replace (Z.to_nat (hi - lo)) with O by lia. reflexivity. Qed.

Lemma zrange_snoc (lo hi : Z) : lo <= hi -> zrange lo (hi + 1) = zrange lo hi ++ [hi].
Proof.
  intros H. unfold zrange.
  replace (Z.to_nat (hi + 1 - lo)) with (S (Z.to_nat (hi - lo))) by lia.
  rewrite seq_S, map_app. cbn [map]. do 2 f_equal. lia.
Qed.

Lemma for_nil {S : Type} (lo hi : Z) (body : Z -> S -> S) (s : S) :
  hi <= lo -> for_ lo hi body s = s.
Proof. intros H. unfold for_. now rewrite zrange_nil. Qed.

Lemma for_snoc {S : Type} (lo hi : Z) (body : Z -> S -> S) (s : S) :
  lo <= hi -> for_ lo (hi + 1) body s = body hi (for_ lo hi body s).
Proof. intros H. unfold for_. rewrite zrange_snoc by assumption. now rewrite fold_left_app. Qed.

(** Induction over the upper bound of a loop. *)
Lemma for_ind {S : Type} (lo : Z) (body : Z -> S -> S) (s : S) (P : Z -> S -> Prop) :
  P lo s ->
  (forall i r, lo <= i -> P i r -> P (i + 1) (body i r)) ->
  forall hi, lo <= hi -> P hi (for_ lo hi body s).
Proof.
  intros H0 Hstep hi Hhi.
  replace hi with (lo + Z.of_nat (Z.to_nat (hi - lo))) by lia.
  induction (Z.to_nat (hi - lo)) as [|n IH].
  - rewrite Z.add_0_r, for_nil by lia. exact H0.
  - rewrite Nat2Z.inj_succ. unfold Z.succ. rewrite Z.add_assoc.
    rewrite for_snoc by lia. apply Hstep; [lia|exact IH].
Qed.

(** A loop whose iterations work on pairwise disjoint sets of addresses
    [F i]: iteration [i] changes nothing outside [F i], and what it leaves in
    [F i] depends only on what it finds there.  Then the loop leaves in
    [F i] what iteration [i] alone leaves there, and changes nothing outside
    the sets. *)
Section Footprint.

Variable body : Z -> mem -> mem.
Variable F : Z -> Z -> Prop.
Variables lo hi : Z.

Hypothesis frame : forall i M a, lo <= i < hi -> ~ F i a -> body i M a = M a.
Hypothesis local : forall i M1 M2, lo <= i < hi ->
  (forall a, F i a -> M1 a = M2 a) -> forall a, F i a -> body i M1 a = body i M2 a.
Hypothesis disjoint : forall i j a, lo <= i < hi -> lo <= j < hi -> F i a -> F j a -> i = j.

Lemma for_footprint_upto (M : mem) : forall k, lo <= k <= hi ->
  (forall i a, lo <= i < k -> F i a -> for_ lo k body M a = body i M a) /\
  (forall a, (forall i, lo <= i < k -> ~ F i a) -> for_ lo k body M a = M a).
Proof.
  intros k Hk. destruct Hk as [Hk1 Hk2]. revert Hk2.
  apply (for_ind lo body M (fun k r => k <= hi ->
    (forall i a, lo <= i < k -> F i a -> r a = body i M a) /\
    (forall a, (forall i, lo <= i < k -> ~ F i a) -> r a = M a))); [| |exact Hk1].
  - intros _. split; [intros; lia|reflexivity].
  - intros i r Hi IH Hle. destruct IH as [IH1 IH2]; [lia|]. split.
    + intros j a Hj Fj. destruct (Z.eq_dec j i) as [->|Hne].
      * apply local; [lia| |exact Fj].
        intros b Fb. apply IH2. intros j' Hj' Fj'.
        assert (j' = i) by (apply (disjoint j' i b); auto; lia). lia.
      * rewrite frame; [apply IH1; [lia|exact Fj]|lia|].
        intros Fi. apply Hne. apply (disjoint j i a); auto; lia.
    + intros a Hout. rewrite frame; [|lia|apply Hout; lia].
      apply IH2. intros j Hj. apply Hout. lia.
Qed.

Lemma for_footprint_in (M : mem) (i a : Z) :
  lo <= i < hi -> F i a -> for_ lo hi body M a = body i M a.
Proof.
  intros Hi Fi. destruct (Z.le_gt_cases lo hi) as [Hle|Hgt]; [|lia].
  destruct (for_footprint_upto M hi) as [H _]; [lia|]. now apply H.
Qed.

Lemma for_footprint_out (M : mem) (a : Z) :
  (forall i, lo <= i < hi -> ~ F i a) -> for_ lo hi body M a = M a.
Proof.
  intros Hout. destruct (Z.le_gt_cases lo hi) as [Hle|Hgt].
  - destruct (for_footprint_upto M hi) as [_ H]; [lia|]. now apply H.
  - now rewrite for_nil by lia.
Qed.

End Footprint.

(** ** Stores *)

Lemma store_same (M : mem) (p v : Z) : store M p v p = v mod 256.
Proof. unfold store. now rewrite Z.eqb_refl. Qed.

Lemma store_other (M : mem) (p v q : Z) : q <> p -> store M p v q = M q.
Proof. intros H. unfold store. destruct (Z.eqb_spec q p); [contradiction|reflexivity]. Qed.

(** ** Loops that rewrite every channel of a region by a function [g] *)

Section Channelwise.

Variable g : Z -> Z.
Variables Channels Width : Z.

Lemma channel_loop_in Row x M Channel :
  0 <= Channel < Channels ->
  channel_loop g Channels Row x M (Row + Channels * x + Channel)
  = g (M (Row + Channels * x + Channel)) mod 256.
Proof.
  intros Hc. unfold channel_loop.
  rewrite (for_footprint_in _ (fun c a => a = Row + Channels * x + c)) with (i := Channel);
    try assumption; try reflexivity.
  - cbv zeta. now rewrite store_same.
  - intros i M' a _ Ha. cbv zeta. now rewrite store_other.
  - intros i M1 M2 _ Hagree a ->. cbv zeta. rewrite !store_same. unfold load.
    now rewrite Hagree.
  - intros i j a _ _ -> Hj. lia.
Qed.

Lemma channel_loop_out Row x M a :
  ~ (Row + Channels * x <= a < Row + Channels * x + Channels) ->
  channel_loop g Channels Row x M a = M a.
Proof.
  intros Ha. unfold channel_loop.
  apply (for_footprint_out _ (fun c a => a = Row + Channels * x + c)).
  - intros i M' b _ Hb. cbv zeta. now rewrite store_other.
  - intros i M1 M2 _ Hagree b ->. cbv zeta. rewrite !store_same. unfold load.
    now rewrite Hagree.
  - intros i j b _ _ -> Hj. lia.
  - intros i Hi ->. apply Ha. lia.
Qed.

Lemma row_loop_in Row M x Channel :
  0 <= x < Width -> 0 <= Channel < Channels ->
  row_loop g Channels Width Row M (Row + Channels * x + Channel)
  = g (M (Row + Channels * x + Channel)) mod 256.
Proof.
  intros Hx Hc. unfold row_loop.
  rewrite (for_footprint_in _
             (fun x a => Row + Channels * x <= a < Row + Channels * x + Channels))
    with (i := x); try assumption.
  - now apply channel_loop_in.
  - intros i M' a _ Ha. now apply channel_loop_out.
  - intros i M1 M2 _ Hagree a Ha.
    replace a with (Row + Channels * i + (a - (Row + Channels * i))) by lia.
    rewrite !channel_loop_in by lia. now rewrite Hagree by lia.
  - intros i j a _ _ Hi Hj. nia.
  - lia.
Qed.

Lemma row_loop_out Row M a :
  ~ (Row <= a < Row + Channels * Width) -> row_loop g Channels Width Row M a = M a.
Proof.
  intros Ha. unfold row_loop.
  apply (for_footprint_out _
           (fun x a => Row + Channels * x <= a < Row + Channels * x + Channels)).
  - intros i M' b _ Hb. now apply channel_loop_out.
  - intros i M1 M2 _ Hagree b Hb.
    replace b with (Row + Channels * i + (b - (Row + Channels * i))) by lia.
    rewrite !channel_loop_in by lia. now rewrite Hagree by lia.
  - intros i j b _ _ Hi Hj. nia.
  - intros i Hi Hb. apply Ha. nia.
Qed.

Lemma row_loop_local Row M1 M2 :
  (forall a, Row <= a < Row + Channels * Width -> M1 a = M2 a) ->
  forall a, Row <= a < Row + Channels * Width -> row_loop g Channels Width Row M1 a = row_loop g Channels Width Row M2 a.
Proof.
  intros Hagree a Ha.
  destruct (Z.le_gt_cases Width 0) as [HW|HW].
  { unfold row_loop. rewrite !for_nil by assumption. now apply Hagree. }
  assert (HC : 0 < Channels) by nia.
  set (k := a - Row).
  assert (Hk : 0 <= k < Channels * Width) by lia.
  assert (Hx : 0 <= k / Channels < Width).
  { split; [apply Z.div_pos; lia|]. apply Z.div_lt_upper_bound; lia. }
  pose proof (Z.mod_pos_bound k Channels HC) as Hm.
  pose proof (Z.div_mod k Channels ltac:(lia)) as Hdm.
  replace a with (Row + Channels * (k / Channels) + k mod Channels) by lia.
  rewrite !row_loop_in by assumption. rewrite Hagree; [reflexivity|lia].
Qed.

Lemma region_loop_in M Image Height Stride y x Channel :
  Channels * Width <= Stride ->
  0 <= y < Height -> 0 <= x < Width -> 0 <= Channel < Channels ->
  region_loop g Channels Width M Image Height Stride (Image + y * Stride + Channels * x + Channel)
  = g (M (Image + y * Stride + Channels * x + Channel)) mod 256.
Proof.
  intros HS Hy Hx Hc. unfold region_loop.
  assert (Hin : Image + y * Stride <= Image + y * Stride + Channels * x + Channel
                < Image + y * Stride + Channels * Width) by nia.
  rewrite (for_footprint_in _
             (fun y a => Image + y * Stride <= a < Image + y * Stride + Channels * Width))
    with (i := y); try assumption.
  - cbv zeta. now apply row_loop_in.
  - intros i M' a _ Ha. cbv zeta. now apply row_loop_out.
  - intros i M1 M2 _ Hagree a Ha. cbv zeta. now apply row_loop_local.
  - intros i j a _ _ Hi Hj. nia.
Qed.

Lemma region_loop_out M Image Height Stride a :
  Channels * Width <= Stride ->
  (forall y, 0 <= y < Height ->
     ~ (Image + y * Stride <= a < Image + y * Stride + Channels * Width)) ->
  region_loop g Channels Width M Image Height Stride a = M a.
Proof.
  intros HS Hout. unfold region_loop.
  apply (for_footprint_out _
           (fun y a => Image + y * Stride <= a < Image + y * Stride + Channels * Width)).
  - intros i M' b _ Hb. cbv zeta. now apply row_loop_out.
  - intros i M1 M2 _ Hagree b Hb. cbv zeta. now apply row_loop_local.
  - intros i j b _ _ Hi Hj. nia.
  - exact Hout.
Qed.

End Channelwise.

Lemma change_contrast_region_loop M Image Width Height Channels Stride Contrast :
  change_contrast M Image Width Height Channels Stride Contrast
  = region_loop (contrast_value Contrast) Channels Width M Image Height Stride.
Proof. reflexivity. Qed.

(** ** Checks over the 256 values of a byte *)

Lemma forallb_zrange (P : Z -> bool) (lo hi : Z) :
  forallb P (zrange lo hi) = true -> forall i, lo <= i < hi -> P i = true.
Proof. intros H i Hi. rewrite forallb_forall in H. apply H. now apply In_zrange. Qed.

Lemma clamp_range (a lower upper : Z) : lower <= upper -> lower <= clamp a lower upper <= upper.
Proof. unfold clamp. lia. Qed.

(** ** [change_contrast] with the factor 1 *)

Lemma contrast_value_one (p : Z) :
  0 <= p < 256 -> contrast_value F32.one p = Z.min (p + 127) 255.
Proof.
  intros Hp. apply Z.eqb_eq.
  apply (forallb_zrange (fun p => contrast_value F32.one p =? Z.min (p + 127) 255) 0 256);
    [vm_compute; reflexivity|assumption].
Qed.

(** C2, as the code has it.  With the factor 1.0 the transform is not the
    identity: on a region whose rows do not overlap, [change_contrast] replaces
    every channel value [p] by [min (p + 127) 255].  The [0.5f] is added
    before the scaling by [255.f], so it is an offset of 127.5 that the
    conversion to [int] truncates; only the value 255 is left as it was. *)
Theorem change_contrast_one M Image Width Height Channels Stride y x Channel :
  bytes M ->
  Channels * Width <= Stride ->
  0 <= y < Height -> 0 <= x < Width -> 0 <= Channel < Channels ->
  change_contrast M Image Width Height Channels Stride F32.one
    (Image + y * Stride + Channels * x + Channel)
  = Z.min (M (Image + y * Stride + Channels * x + Channel) + 127) 255.
Proof.
  intros HM HS Hy Hx Hc. rewrite change_contrast_region_loop.
  rewrite region_loop_in by assumption.
  rewrite contrast_value_one by apply HM.
  apply Z.mod_small. pose proof (HM (Image + y * Stride + Channels * x + Channel)). lia.
Qed.

Lemma change_contrast_one_witness :
  change_contrast black 0 1 1 3 3 F32.one (0 + 0 * 3 + 3 * 0 + 0)
  = Z.min (black (0 + 0 * 3 + 3 * 0 + 0) + 127) 255.
Proof.
  apply change_contrast_one.
  - intros p. unfold black. lia.
  - lia.
  - lia.
  - lia.
  - lia.
Defined.

(** C2, as stated, fails: a black pixel, alone in its buffer, comes out of
    [change_contrast] with the factor 1.0 as the gray (127, 127, 127). *)
Lemma change_contrast_one_not_identity :
  (black 0 = 0 /\ black 1 = 0 /\ black 2 = 0) /\
  change_contrast black 0 1 1 3 3 F32.one 0 = 127 /\
  change_contrast black 0 1 1 3 3 F32.one 1 = 127 /\
  change_contrast black 0 1 1 3 3 F32.one 2 = 127.
Proof.
  split; [repeat split|]. repeat split; vm_compute; reflexivity.
Qed.

(** ** [to_grayscale] *)

Lemma gray_value_range (P0 P1 P2 : Z) : 0 <= gray_value P0 P1 P2 < 256.
Proof. unfold gray_value. pose proof (clamp_range
  (F32.to_int
           (F32.add (F32.add (F32.mul (F32.lit 299 1000) (F32.of_int P2))
                             (F32.mul (F32.lit 587 1000) (F32.of_int P1)))
                    (F32.mul (F32.lit 114 1000) (F32.of_int P0)))) 0 255 ltac:(lia)). lia. Qed.

Lemma gray_pixel_in (Pixel : Z) (M : mem) (c : Z) :
  0 <= c < 3 ->
  gray_pixel Pixel M (Pixel + c) = gray_value (M Pixel) (M (Pixel + 1)) (M (Pixel + 2)).
Proof.
  intros Hc. unfold gray_pixel, load. rewrite !Z.add_0_r.
  set (v := gray_value _ _ _).
  assert (Hv : v mod 256 = v) by (apply Z.mod_small, gray_value_range).
  assert (c = 0 \/ c = 1 \/ c = 2) as [->|[->| ->]] by lia.
  - rewrite Z.add_0_r, store_same. exact Hv.
  - rewrite store_other by lia. rewrite store_same. exact Hv.
  - rewrite !store_other by lia. rewrite store_same. exact Hv.
Qed.

Lemma gray_pixel_out (Pixel : Z) (M : mem) (a : Z) :
  ~ (Pixel <= a < Pixel + 3) -> gray_pixel Pixel M a = M a.
Proof. intros Ha. unfold gray_pixel. rewrite !store_other by lia. reflexivity. Qed.

Lemma gray_pixel_local (Pixel : Z) (M1 M2 : mem) :
  (forall a, Pixel <= a < Pixel + 3 -> M1 a = M2 a) ->
  forall a, Pixel <= a < Pixel + 3 -> gray_pixel Pixel M1 a = gray_pixel Pixel M2 a.
Proof.
  intros Hagree a Ha. replace a with (Pixel + (a - Pixel)) by lia.
  rewrite !gray_pixel_in by lia. rewrite !Hagree by lia. reflexivity.
Qed.

Section GrayRows.

Variable Width : Z.

Lemma gray_row_loop_in Row M x c :
  0 <= x < Width -> 0 <= c < 3 ->
  gray_row_loop 3 Width Row M (Row + 3 * x + c)
  = gray_value (M (Row + 3 * x)) (M (Row + 3 * x + 1)) (M (Row + 3 * x + 2)).
Proof.
  intros Hx Hc. unfold gray_row_loop.
  rewrite (for_footprint_in _ (fun x a => Row + 3 * x <= a < Row + 3 * x + 3))
    with (i := x); try assumption.
  - now apply gray_pixel_in.
  - intros i M' a _ Ha. now apply gray_pixel_out.
  - intros i M1 M2 _ Hagree a Ha. now apply gray_pixel_local.
  - intros i j a _ _ Hi Hj. lia.
  - lia.
Qed.

Lemma gray_row_loop_out Row M a :
  ~ (Row <= a < Row + 3 * Width) -> gray_row_loop 3 Width Row M a = M a.
Proof.
  intros Ha. unfold gray_row_loop.
  apply (for_footprint_out _ (fun x a => Row + 3 * x <= a < Row + 3 * x + 3)).
  - intros i M' b _ Hb. now apply gray_pixel_out.
  - intros i M1 M2 _ Hagree b Hb. now apply gray_pixel_local.
  - intros i j b _ _ Hi Hj. lia.
  - intros i Hi Hb. apply Ha. lia.
Qed.

Lemma gray_row_loop_local Row M1 M2 :
  (forall a, Row <= a < Row + 3 * Width -> M1 a = M2 a) ->
  forall a, Row <= a < Row + 3 * Width ->
  gray_row_loop 3 Width Row M1 a = gray_row_loop 3 Width Row M2 a.
Proof.
  intros Hagree a Ha.
  set (k := a - Row).
  pose proof (Z.mod_pos_bound k 3 ltac:(lia)) as Hm.
  pose proof (Z.div_mod k 3 ltac:(lia)) as Hdm.
  assert (Hx : 0 <= k / 3 < Width) by lia.
  replace a with (Row + 3 * (k / 3) + k mod 3) by lia.
  rewrite !gray_row_loop_in by assumption. rewrite !Hagree by lia. reflexivity.
Qed.

Lemma to_grayscale_in M Image Height Stride y x c :
  3 * Width <= Stride ->
  0 <= y < Height -> 0 <= x < Width -> 0 <= c < 3 ->
  to_grayscale M Image Width Height 3 Stride (Image + y * Stride + 3 * x + c)
  = gray_value (M (Image + y * Stride + 3 * x))
               (M (Image + y * Stride + 3 * x + 1))
               (M (Image + y * Stride + 3 * x + 2)).
Proof.
  intros HS Hy Hx Hc.
  change (to_grayscale M Image Width Height 3 Stride)
    with (for_ 0 Height (fun y M => gray_row_loop 3 Width (Image + y * Stride) M) M).
  rewrite (for_footprint_in _
             (fun y a => Image + y * Stride <= a < Image + y * Stride + 3 * Width))
    with (i := y); try assumption.
  - now apply gray_row_loop_in.
  - intros i M' a _ Ha. now apply gray_row_loop_out.
  - intros i M1 M2 _ Hagree a Ha. now apply gray_row_loop_local.
  - intros i j a _ _ Hi Hj. nia.
  - lia.
Qed.

End GrayRows.

Lemma gray_value_gray (v : Z) :
  0 <= v < 256 -> gray_value v v v = if lowered v then v - 1 else v.
Proof.
  intros Hv. apply Z.eqb_eq.
  apply (forallb_zrange (fun v => gray_value v v v =? if lowered v then v - 1 else v) 0 256);
    [vm_compute; reflexivity|assumption].
Qed.

(** C9, as the code has it.  On a 3-channel region whose rows do not overlap,
    a second [to_grayscale] leaves every byte of the region as the first one
    left it, except where the first one produced one of the thirteen gray
    levels of [lowered_levels]: there the second one writes the level minus
    one, because the binary32 luma of [(v, v, v)] falls just below [v] and
    the conversion to [int] truncates it. *)
Theorem to_grayscale_twice M Image Width Height Stride y x c :
  3 * Width <= Stride ->
  0 <= y < Height -> 0 <= x < Width -> 0 <= c < 3 ->
  let once := to_grayscale M Image Width Height 3 Stride in
  let twice := to_grayscale once Image Width Height 3 Stride in
  let a := Image + y * Stride + 3 * x + c in
  twice a = if lowered (once a) then once a - 1 else once a.
Proof.
  intros HS Hy Hx Hc once twice a. unfold twice, a.
  rewrite to_grayscale_in by assumption.
  set (P := Image + y * Stride + 3 * x).
  assert (H0 : once P = once (P + c)).
  { unfold once, P. replace (Image + y * Stride + 3 * x) with (Image + y * Stride + 3 * x + 0) at 1 by lia.
    rewrite !to_grayscale_in by (assumption || lia). reflexivity. }
  assert (H1 : once (P + 1) = once (P + c)).
  { unfold once, P. rewrite !to_grayscale_in by (assumption || lia). reflexivity. }
  assert (H2 : once (P + 2) = once (P + c)).
  { unfold once, P. rewrite !to_grayscale_in by (assumption || lia). reflexivity. }
  rewrite H0, H1, H2. apply gray_value_gray.
  unfold once, P. rewrite to_grayscale_in by assumption. apply gray_value_range.
Qed.

Lemma to_grayscale_twice_witness :
  to_grayscale (to_grayscale green_pixel 0 1 1 3 3) 0 1 1 3 3 (0 + 0 * 3 + 3 * 0 + 0)
  = if lowered (to_grayscale green_pixel 0 1 1 3 3 (0 + 0 * 3 + 3 * 0 + 0))
    then to_grayscale green_pixel 0 1 1 3 3 (0 + 0 * 3 + 3 * 0 + 0) - 1
    else to_grayscale green_pixel 0 1 1 3 3 (0 + 0 * 3 + 3 * 0 + 0).
Proof.
  apply (to_grayscale_twice green_pixel 0 1 1 3 0 0 0); lia.
Defined.

(** C9, as stated, fails: the pixel [B = 0, G = 64, R = 0] becomes the gray
    37 after one [to_grayscale] and the gray 36 after two. *)
Lemma to_grayscale_not_idempotent :
  (to_grayscale green_pixel 0 1 1 3 3 0 = 37 /\
   to_grayscale green_pixel 0 1 1 3 3 1 = 37 /\
   to_grayscale green_pixel 0 1 1 3 3 2 = 37) /\
  (to_grayscale (to_grayscale green_pixel 0 1 1 3 3) 0 1 1 3 3 0 = 36 /\
   to_grayscale (to_grayscale green_pixel 0 1 1 3 3) 0 1 1 3 3 1 = 36 /\
   to_grayscale (to_grayscale green_pixel 0 1 1 3 3) 0 1 1 3 3 2 = 36).
Proof.
  repeat split; vm_compute; reflexivity.
Qed.

(** ** [invert_image] *)

Lemma fold_left_map {A B C : Type} (f : A -> B -> A) (g : C -> B) (l : list C) : forall a,
  fold_left f (map g l) a = fold_left (fun a c => f a (g c)) l a.
Proof. induction l as [|c l IH]; intros a; [reflexivity|apply IH]. Qed.

Lemma fold_left_flat_map {A B C : Type} (f : A -> B -> A) (g : C -> list B) (l : list C) :
  forall a,
  fold_left f (flat_map g l) a = fold_left (fun a c => fold_left f (g c) a) l a.
Proof.
  induction l as [|c l IH]; intros a; [reflexivity|].
  cbn [flat_map fold_left]. rewrite fold_left_app. apply IH.
Qed.

Lemma fold_left_pointwise {A B : Type} (f g : A -> B -> A) (l : list B) :
  (forall a b, f a b = g a b) -> forall a, fold_left f l a = fold_left g l a.
Proof.
  intros H. induction l as [|b l IH]; intros a; [reflexivity|].
  cbn [fold_left]. rewrite H. apply IH.
Qed.

Lemma invert_image_flips M Image Width Height Channels Stride :
  invert_image M Image Width Height Channels Stride
  = fold_left flip (visited Image Width Height Channels Stride) M.
Proof.
  unfold invert_image, visited, for_.
  rewrite fold_left_flat_map. apply fold_left_pointwise. intros M1 y.
  rewrite fold_left_flat_map. apply fold_left_pointwise. intros M2 x.
  rewrite fold_left_map. reflexivity.
Qed.

Lemma flip_flip M a : bytes M -> forall p, flip (flip M a) a p = M p.
Proof.
  intros HM p. unfold flip, store, load. rewrite Z.eqb_refl.
  destruct (Z.eqb_spec p a) as [->|]; [|reflexivity].
  pose proof (HM a). rewrite (Z.mod_small (255 - M a)) by lia.
  rewrite Z.mod_small by lia. lia.
Qed.

Lemma flip_comm M a b : forall p, flip (flip M a) b p = flip (flip M b) a p.
Proof.
  intros p. unfold flip, store, load.
  destruct (Z.eqb_spec p b), (Z.eqb_spec p a), (Z.eqb_spec b a), (Z.eqb_spec a b);
    subst; try contradiction; try reflexivity; congruence.
Qed.

Lemma flip_ext M1 M2 a : (forall p, M1 p = M2 p) -> forall p, flip M1 a p = flip M2 a p.
Proof. intros H p. unfold flip, store, load. rewrite (H a). destruct (p =? a); [reflexivity|apply H]. Qed.

Lemma flips_ext l : forall M1 M2,
  (forall p, M1 p = M2 p) -> forall p, fold_left flip l M1 p = fold_left flip l M2 p.
Proof.
  induction l as [|a l IH]; intros M1 M2 H; [exact H|].
  cbn [fold_left]. apply IH. now apply flip_ext.
Qed.

Lemma flip_flips l a : forall M p,
  fold_left flip l (flip M a) p = flip (fold_left flip l M) a p.
Proof.
  induction l as [|b l IH]; intros M p; [reflexivity|].
  cbn [fold_left]. rewrite <- IH. apply flips_ext. apply flip_comm.
Qed.

(** Inverting the same addresses a second time, in the same order, restores
    every byte, whether or not an address occurs several times. *)
Lemma flips_twice l : forall M, bytes M ->
  forall p, fold_left flip l (fold_left flip l M) p = M p.
Proof.
  induction l as [|a l IH]; intros M HM p; [reflexivity|].
  cbn [fold_left].
  rewrite (flips_ext l (flip (fold_left flip l (flip M a)) a) (fold_left flip l M)).
  - now apply IH.
  - intros q. rewrite <- flip_flips.
    rewrite (flips_ext l (flip (flip M a) a) M); [reflexivity|]. now apply flip_flip.
Qed.

(** C8. For every byte memory and every width, height, channel count and
    stride (rows may overlap, so a byte may be visited several times),
    [invert_image] applied twice gives back every byte of the memory. *)
Theorem invert_image_twice M Image Width Height Channels Stride p :
  bytes M ->
  invert_image (invert_image M Image Width Height Channels Stride)
    Image Width Height Channels Stride p = M p.
Proof.
  intros HM. rewrite !invert_image_flips. now apply flips_twice.
Qed.

Lemma invert_image_twice_witness :
  invert_image (invert_image white 0 2 2 3 4) 0 2 2 3 4 5 = white 5.
Proof.
  apply invert_image_twice. intros p. unfold white. lia.
Defined.

(** ** [replace_char] and [trim] *)

Lemma nth_nonspace (l : list ascii) (n : nat) :
  Forall (fun c => isspace c = false) l -> isspace (nth n l NUL) = false.
Proof.
  intros Hall. destruct (nth_in_or_default n l NUL) as [Hin| ->]; [|reflexivity].
  rewrite Forall_forall in Hall. now apply Hall.
Qed.

Lemma step_back_nonspace (l : list ascii) (n : nat) :
  Forall (fun c => isspace c = false) l -> step_back l n = O.
Proof.
  intros Hall. induction n as [|n IH]; [reflexivity|].
  cbn [step_back]. now rewrite nth_nonspace.
Qed.

Lemma skip_leading_nonspace (l : list ascii) :
  Forall (fun c => isspace c = false) l -> skip_leading l = l.
Proof.
  intros Hall. destruct Hall as [|c l Hc Hl]; [reflexivity|].
  cbn [skip_leading]. rewrite Hc, andb_false_r. reflexivity.
Qed.

Lemma replace_char_nonspace (s : string) :
  Forall (fun c => isspace c = false) (list_ascii_of_string s) ->
  Forall (fun c => isspace c = false)
    (list_ascii_of_string (replace_char s "010"%char " "%char)).
Proof.
  induction s as [|c s IH]; intros Hall; [constructor|].
  cbn [list_ascii_of_string] in Hall. inversion Hall as [|? ? Hc Hs]; subst.
  cbn [replace_char].
  destruct (Ascii.eqb c NUL) eqn:E0; [constructor|].
  destruct (Ascii.eqb_spec c "010"%char) as [->|_]; [discriminate Hc|].
  rewrite E0. cbn [list_ascii_of_string]. constructor; [exact Hc|now apply IH].
Qed.

(** C10, as the code has it.  For every non-empty string without any
    whitespace character, [trim] returns the empty string when the byte
    behind the terminator, which the last loop reads first, is not
    whitespace: the loop then steps back over every character, down to the
    start, and a recognizer result without whitespace is recorded as the
    empty text. *)
Theorem trim_without_whitespace (s : string) (past : ascii) (past_end : string -> ascii) :
  s <> EmptyString ->
  Forall (fun c => isspace c = false) (list_ascii_of_string s) ->
  isspace past = false ->
  isspace (past_end (replace_char s "010"%char " "%char)) = false ->
  trim s past = EmptyString /\ recognized_text past_end s = EmptyString.
Proof.
  intros _ Hs Hpast Hend.
  assert (Htrim : forall r q,
    Forall (fun c => isspace c = false) (list_ascii_of_string r) ->
    isspace q = false -> trim r q = EmptyString).
  { intros r q Hr Hq.
    assert (Hall : Forall (fun c => isspace c = false) (c_str r q)).
    { unfold c_str. apply Forall_app. split; [exact Hr|]. repeat constructor. exact Hq. }
    unfold trim. rewrite skip_leading_nonspace by exact Hall.
    rewrite step_back_nonspace by exact Hall. reflexivity. }
  split.
  - now apply Htrim.
  - unfold recognized_text. apply Htrim; [now apply replace_char_nonspace|exact Hend].
Qed.

Lemma trim_without_whitespace_witness :
  trim "Kiana"%string NUL = EmptyString /\
  recognized_text zero_past "Kiana"%string = EmptyString.
Proof.
  apply trim_without_whitespace.
  - discriminate.
  - repeat constructor.
  - reflexivity.
  - reflexivity.
Defined.

(** C10, as stated, fails: with a space in the byte behind the terminator
    the last loop of [trim] does not run, and the text [Kiana], which has
    no whitespace, comes back whole with the terminator appended, both from
    [trim] and as the recorded text. *)
Lemma trim_without_whitespace_keeps_text :
  Forall (fun c => isspace c = false) (list_ascii_of_string "Kiana"%string) /\
  trim "Kiana"%string " "%char = String.append "Kiana"%string (String NUL EmptyString) /\
  trim "Kiana"%string " "%char <> EmptyString /\
  recognized_text (fun _ => " "%char) "Kiana"%string <> EmptyString.
Proof.
  split; [repeat constructor|].
  split; [vm_compute; reflexivity|].
  split; vm_compute; discriminate.
Qed.

(** C4. The post-processing [trim(replace_char(Str, '\n', ' '))] does not
    return the recognizer's text with the newlines turned into spaces and
    the whitespace at both ends removed.  On the text [A B] that result is
    [A B]; the code returns [A], the last word dropped (or, with a
    whitespace byte behind the terminator, [A B] and the terminator).  On
    the text [Kiana] followed by two newlines that result is [Kiana]; the
    code returns [Kiana] and a space (or, with a whitespace byte behind the
    terminator, two spaces and the terminator). *)
Theorem recognized_text_drops_last_word (past_end : string -> ascii) :
  (normalized_text "A B"%string = "A B"%string /\
   recognized_text past_end "A B"%string
   = (if isspace (past_end "A B"%string)
      then String.append "A B"%string (String NUL EmptyString)
      else "A"%string) /\
   recognized_text past_end "A B"%string <> normalized_text "A B"%string) /\
  (normalized_text two_blank_lines = "Kiana"%string /\
   recognized_text past_end two_blank_lines
   = (if isspace (past_end "Kiana  "%string)
      then String.append "Kiana  "%string (String NUL EmptyString)
      else "Kiana "%string) /\
   recognized_text past_end two_blank_lines <> normalized_text two_blank_lines).
Proof.
  split.
  - split; [reflexivity|].
    unfold recognized_text.
    change (replace_char "A B"%string "010"%char " "%char) with "A B"%string.
    generalize (past_end "A B"%string). intros past.
    split; destruct past as [[] [] [] [] [] [] [] []]; vm_compute;
      solve [reflexivity | discriminate].
  - split; [reflexivity|].
    unfold recognized_text.
    change (replace_char two_blank_lines "010"%char " "%char) with "Kiana  "%string.
    generalize (past_end "Kiana  "%string). intros past.
    split; destruct past as [[] [] [] [] [] [] [] []]; vm_compute;
      solve [reflexivity | discriminate].
Qed.

(** ** The frame loop and its latches *)

Lemma count_events_app ty l1 l2 :
  count_events ty (l1 ++ l2) = (count_events ty l1 + count_events ty l2)%nat.
Proof. unfold count_events. now rewrite filter_app, length_app. Qed.

Lemma emitted_app Before After new :
  Events After = Events Before ++ new -> emitted Before After = new.
Proof.
  intros H. unfold emitted. rewrite H. rewrite skipn_app, skipn_all, Nat.sub_diag.
  reflexivity.
Qed.

Lemma filter_entered ty l :
  is_screen_entered (mk_event ty EmptyString) = true ->
  count_events ty l = count_events ty (filter is_screen_entered l).
Proof.
  intros Hty. unfold count_events. f_equal.
  induction l as [|e l IH]; [reflexivity|]. cbn [filter].
  destruct (is_screen_entered e) eqn:Ee; cbn [filter].
  - destruct (event_type_eqb (EType e) ty); [f_equal|]; exact IH.
  - destruct (event_type_eqb (EType e) ty) eqn:Et; [|exact IH].
    exfalso. unfold is_screen_entered in *. cbn [EType] in Hty.
    destruct (EType e), ty; discriminate.
Qed.

Lemma rising_edges_cons t State had F run :
  rising_edges t State had (F :: run)
  = ((if latch_input State t F && negb had then 1 else 0)
     + rising_edges t State (latch_input State t F) run)%nat.
Proof. reflexivity. Qed.

Section PipelineProperties.

Variable GetUTF8Text : mem -> Z -> Z -> Z -> Z -> Z -> string.
Variable past_end : string -> ascii.

Lemma scan_stigmata_screen_state State RefFrame :
  exists name t m b,
    fst (scan_stigmata_screen GetUTF8Text past_end State RefFrame)
    = mk_state (Width State) (Height State)
        (Events State ++
           [mk_event EVENT_STIGMATA_SCREEN EmptyString;
            mk_event EVENT_VALKYRIE_NAME name;
            mk_event EVENT_STIGMATA t; mk_event EVENT_STIGMATA m; mk_event EVENT_STIGMATA b])
        (HadStigmataScreenIndicator State) (HadLineupScreenIndicator State)
        (StigmataFrameIndex State + 1) (LineupFrameIndex State).
Proof.
  unfold scan_stigmata_screen.
  cbv beta iota zeta delta [fold_left add_event set_Events set_StigmataFrameIndex fst snd
    Width Height Events HadStigmataScreenIndicator HadLineupScreenIndicator
    StigmataFrameIndex LineupFrameIndex].
  destruct State as [W H Ev HS HL SI LI].
  do 4 eexists. rewrite <- !app_assoc. cbn [app]. reflexivity.
Qed.

Lemma main_step_spec State RefFrame :
  exists new SI LI,
    main_step GetUTF8Text past_end State RefFrame
    = mk_state (Width State) (Height State) (Events State ++ new)
        (latch_input State Stigmata RefFrame) (latch_input State Lineup RefFrame) SI LI /\
    filter is_screen_entered new
    = (if latch_input State Stigmata RefFrame && negb (HadStigmataScreenIndicator State)
       then [mk_event EVENT_STIGMATA_SCREEN EmptyString] else [])
      ++ (if latch_input State Lineup RefFrame && negb (HadLineupScreenIndicator State)
          then [mk_event EVENT_LINEUP_SCREEN EmptyString] else []).
Proof.
  unfold main_step, latch_input, verdict.
  destruct State as [W H Ev HS HL SI LI].
  cbn [Width Height Events HadStigmataScreenIndicator HadLineupScreenIndicator andb].
  destruct (screen_test RefFrame (mk_Size W H) StigmataScreenIndicators
              StigmataScreenThresholdConfidence) eqn:Es.
  - destruct HS; cbn [negb andb].
    + exists [], SI, LI. rewrite app_nil_r. split; reflexivity.
    + destruct (scan_stigmata_screen_state
                  (set_HadStigmataScreenIndicator (mk_state W H Ev false HL SI LI) true)
                  RefFrame) as (name & t & m & b & Hscan).
      destruct (scan_stigmata_screen GetUTF8Text past_end _ RefFrame) as [State' Frame'].
      cbn [fst] in Hscan. subst State'.
      eexists _, _, _. split; [reflexivity|]. reflexivity.
  - cbn [negb andb].
    destruct (screen_test RefFrame (mk_Size W H) LineupScreenIndicators
                LineupScreenThresholdConfidence) eqn:El.
    + destruct HL; cbn [negb andb].
      * exists [], SI, LI. rewrite app_nil_r. split; reflexivity.
      * eexists _, _, _. split; [reflexivity|]. reflexivity.
    + exists [], SI, LI. rewrite app_nil_r. split; reflexivity.
Qed.

Lemma latch_input_size State State' t RefFrame :
  Width State' = Width State -> Height State' = Height State ->
  latch_input State' t RefFrame = latch_input State t RefFrame.
Proof. intros HW HH. unfold latch_input, verdict. now rewrite HW, HH. Qed.

Lemma rising_edges_size State State' t had run :
  Width State' = Width State -> Height State' = Height State ->
  rising_edges t State' had run = rising_edges t State had run.
Proof.
  intros HW HH. revert had. induction run as [|F run IH]; intros had; [reflexivity|].
  rewrite !rising_edges_cons. rewrite (latch_input_size State State') by assumption.
  now rewrite IH.
Qed.

(** One frame: the sizes stay, the latch of each tag takes the value of its
    input, and the log grows by one entered event of the tag exactly on a
    rising edge. *)
Lemma main_step_tag State RefFrame t :
  Width (main_step GetUTF8Text past_end State RefFrame) = Width State /\
  Height (main_step GetUTF8Text past_end State RefFrame) = Height State /\
  latch_state (main_step GetUTF8Text past_end State RefFrame) t = latch_input State t RefFrame /\
  exists new,
    Events (main_step GetUTF8Text past_end State RefFrame) = Events State ++ new /\
    count_events (entered_event t) new
    = if latch_input State t RefFrame && negb (latch_state State t) then 1%nat else 0%nat.
Proof.
  destruct (main_step_spec State RefFrame) as (new & SI & LI & -> & Hnew).
  cbn [Width Height Events].
  split; [reflexivity|]. split; [reflexivity|]. split; [destruct t; reflexivity|].
  exists new. split; [reflexivity|].
  { rewrite filter_entered by (destruct t; reflexivity). rewrite Hnew.
    unfold latch_input, latch_state.
    destruct t, (verdict State Stigmata RefFrame), (HadStigmataScreenIndicator State),
      (verdict State Lineup RefFrame), (HadLineupScreenIndicator State); reflexivity. }
Qed.

Lemma main_loop_cons State F run :
  main_loop GetUTF8Text past_end State (F :: run)
  = main_loop GetUTF8Text past_end (main_step GetUTF8Text past_end State F) run.
Proof. reflexivity. Qed.

Lemma main_loop_tag t run : forall State,
  Width (main_loop GetUTF8Text past_end State run) = Width State /\
  Height (main_loop GetUTF8Text past_end State run) = Height State /\
  exists new,
    Events (main_loop GetUTF8Text past_end State run) = Events State ++ new /\
    count_events (entered_event t) new = rising_edges t State (latch_state State t) run.
Proof.
  induction run as [|F run IH]; intros State.
  - split; [reflexivity|]. split; [reflexivity|]. exists [].
    split; [symmetry; apply app_nil_r|reflexivity].
  - rewrite main_loop_cons.
    destruct (main_step_tag State F t) as (HW & HH & HL & new1 & HE1 & HC1).
    destruct (IH (main_step GetUTF8Text past_end State F)) as (HW' & HH' & new2 & HE2 & HC2).
    split; [congruence|]. split; [congruence|].
    exists (new1 ++ new2). split.
    + rewrite HE2, HE1. now rewrite app_assoc.
    + rewrite count_events_app, HC1, HC2, rising_edges_cons, HL.
      now rewrite (rising_edges_size State (main_step GetUTF8Text past_end State F)).
Qed.

Lemma main_loop_snoc State pre F :
  main_loop GetUTF8Text past_end State (pre ++ [F]) = main_step GetUTF8Text past_end (main_loop GetUTF8Text past_end State pre) F.
Proof. unfold main_loop. now rewrite fold_left_app. Qed.

Lemma rising_edges_matching t State run : forall had,
  run <> [] ->
  (forall F, In F run -> latch_input State t F = true) ->
  rising_edges t State had run = if had then 0%nat else 1%nat.
Proof.
  induction run as [|F run IH]; intros had Hne Hall; [contradiction|].
  rewrite rising_edges_cons. rewrite (Hall F) by now left.
  destruct run as [|F' run].
  - destruct had; reflexivity.
  - rewrite IH; [destruct had; reflexivity|discriminate|].
    intros G HG. apply Hall. now right.
Qed.

Lemma rising_edges_idle t State run : forall had,
  (forall F, In F run -> latch_input State t F = false) ->
  rising_edges t State had run = 0%nat.
Proof.
  induction run as [|F run IH]; intros had Hall; [reflexivity|].
  rewrite rising_edges_cons. rewrite (Hall F) by now left.
  apply IH. intros G HG. apply Hall. now right.
Qed.

Lemma run_begins_idle t State pre :
  run_begins t State pre -> latch_state (main_loop GetUTF8Text past_end State pre) t = false.
Proof.
  intros [[-> H]|(pre' & F & -> & H)]; [exact H|].
  rewrite main_loop_snoc.
  destruct (main_step_tag (main_loop GetUTF8Text past_end State pre') F t) as (_ & _ & -> & _).
  destruct (main_loop_tag t pre' State) as (HW & HH & _).
  now rewrite (latch_input_size State (main_loop GetUTF8Text past_end State pre')).
Qed.

(** C3, as the code has it.  For every tag and every sequence of frames,
    the latch of the tag fires its screen-entered action exactly once during
    a run of one or more consecutive frames that drive it, when the run
    follows a frame that did not drive it or begins the stream with the
    latch Idle; and it fires zero times during a run of frames that do not
    drive it.  The frames that drive the latch of a tag are those on which
    the condition of its [if], [check && screen_test(...)], holds: for
    Stigmata the frames its fingerprint matches, for Lineup the frames its
    fingerprint matches and the Stigmata fingerprint does not. *)
Theorem latch_fires_once_per_run (t : tag) (State : state_t) (pre run : list mem) :
  let Before := main_loop GetUTF8Text past_end State pre in
  let After := main_loop GetUTF8Text past_end Before run in
  (run <> [] ->
   (forall F, In F run -> latch_input State t F = true) ->
   run_begins t State pre ->
   count_events (entered_event t) (emitted Before After) = 1%nat) /\
  ((forall F, In F run -> latch_input State t F = false) ->
   count_events (entered_event t) (emitted Before After) = 0%nat).
Proof.
  intros Before After.
  destruct (main_loop_tag t pre State) as (HW & HH & _).
  destruct (main_loop_tag t run Before) as (_ & _ & new & HE & HC).
  rewrite (emitted_app Before After new HE), HC.
  rewrite (rising_edges_size State Before) by assumption.
  split.
  - intros Hne Hall Hbegin. rewrite rising_edges_matching by assumption.
    unfold Before. now rewrite run_begins_idle.
  - intros Hall. now apply rising_edges_idle.
Qed.

(** C5, as the code has it.  After every frame the Stigmata latch equals the
    frame's Stigmata verdict, and the Lineup latch equals the frame's Lineup
    verdict on the frames Stigmata did not match; on a frame Stigmata matched
    the Lineup test is skipped ([check] is false) and the Lineup latch is
    cleared, whatever the Lineup verdict of the frame is. *)
Theorem latch_state_after_frame (t : tag) (State : state_t) (RefFrame : mem) :
  latch_state (main_step GetUTF8Text past_end State RefFrame) t
  = match t with
    | Stigmata => verdict State Stigmata RefFrame
    | Lineup => negb (verdict State Stigmata RefFrame) && verdict State Lineup RefFrame
    end.
Proof.
  destruct (main_step_tag State RefFrame t) as (_ & _ & -> & _). destruct t; reflexivity.
Qed.

(** C6. On every frame on which both fingerprints satisfy their thresholds
    while both latches are Idle, the frame loop emits exactly one
    screen-entered event, the one of Stigmata. *)
Theorem one_entered_event_when_both_match (State : state_t) (RefFrame : mem) :
  verdict State Stigmata RefFrame = true ->
  verdict State Lineup RefFrame = true ->
  HadStigmataScreenIndicator State = false ->
  HadLineupScreenIndicator State = false ->
  filter is_screen_entered (emitted State (main_step GetUTF8Text past_end State RefFrame))
  = [mk_event EVENT_STIGMATA_SCREEN EmptyString].
Proof.
  intros Hs Hl HS HL.
  destruct (main_step_spec State RefFrame) as (new & SI & LI & Hstep & Hnew).
  rewrite (emitted_app State (main_step GetUTF8Text past_end State RefFrame) new) by now rewrite Hstep.
  rewrite Hnew. unfold latch_input. rewrite Hs, Hl, HS, HL. reflexivity.
Qed.

End PipelineProperties.

Lemma latch_fires_once_per_run_witness :
  count_events (entered_event Stigmata)
    (emitted (main_loop reads_Kiana zero_past (initial_state false) [black])
       (main_loop reads_Kiana zero_past
          (main_loop reads_Kiana zero_past (initial_state false) [black])
          [stigmata_frame; stigmata_frame; stigmata_frame])) = 1%nat /\
  count_events (entered_event Stigmata)
    (emitted (main_loop reads_Kiana zero_past (initial_state false) [black])
       (main_loop reads_Kiana zero_past
          (main_loop reads_Kiana zero_past (initial_state false) [black])
          [lineup_frame; black])) = 0%nat.
Proof.
  split.
  - apply (latch_fires_once_per_run reads_Kiana zero_past Stigmata (initial_state false)
             [black] [stigmata_frame; stigmata_frame; stigmata_frame]).
    + discriminate.
    + intros F [<-|[<-|[<-|[]]]]; vm_compute; reflexivity.
    + right. exists [], black. split; [reflexivity|vm_compute; reflexivity].
  - apply (latch_fires_once_per_run reads_Kiana zero_past Stigmata (initial_state false)
             [black] [lineup_frame; black]).
    intros F [<-|[<-|[]]]; vm_compute; reflexivity.
Defined.

(** C3, as stated, fails for the Lineup latch: the three frames of the
    stream [lineup; both; lineup] all match the Lineup fingerprint, one
    maximal run begun with both latches Idle, and the loop emits two Lineup
    entries: the middle frame also matches Stigmata, which clears the
    Lineup latch. *)
Lemma lineup_latch_fires_twice_in_one_run :
  Forall (fun F => verdict (initial_state false) Lineup F = true)
    [lineup_frame; both_frame; lineup_frame] /\
  count_events (entered_event Lineup)
    (emitted (initial_state false)
       (main_loop reads_Kiana zero_past (initial_state false)
          [lineup_frame; both_frame; lineup_frame])) = 2%nat.
Proof.
  split.
  - repeat constructor; vm_compute; reflexivity.
  - destruct (main_loop_tag reads_Kiana zero_past Lineup
                [lineup_frame; both_frame; lineup_frame] (initial_state false))
      as (_ & _ & new & HE & HC).
    rewrite (emitted_app _ _ new HE), HC. vm_compute. reflexivity.
Qed.

(** [main] sets [HadStigmataScreenIndicator] to false before the loop but
    not [HadLineupScreenIndicator].  When that flag happens to be set, a
    run of Lineup frames at the start of the stream emits no Lineup entry. *)
Lemma lineup_run_at_start_with_latch_set :
  count_events (entered_event Lineup)
    (emitted (initial_state true)
       (main_loop reads_Kiana zero_past (initial_state true)
          [lineup_frame; lineup_frame])) = 0%nat.
Proof.
  destruct (main_loop_tag reads_Kiana zero_past Lineup
              [lineup_frame; lineup_frame] (initial_state true))
    as (_ & _ & new & HE & HC).
  rewrite (emitted_app _ _ new HE), HC. vm_compute. reflexivity.
Qed.

(** C5, as stated, fails: on the frame that shows the anchors of both
    fingerprints the Lineup verdict is a match, and the Lineup latch is
    false after the frame. *)
Lemma lineup_latch_cleared_under_stigmata :
  verdict (initial_state false) Stigmata both_frame = true /\
  verdict (initial_state false) Lineup both_frame = true /\
  latch_state (main_step reads_Kiana zero_past (initial_state false) both_frame) Lineup
  = false.
Proof.
  split; [vm_compute; reflexivity|]. split; [vm_compute; reflexivity|].
  destruct (main_step_tag reads_Kiana zero_past (initial_state false) both_frame Lineup)
    as (_ & _ & -> & _).
  vm_compute. reflexivity.
Qed.

Lemma one_entered_event_when_both_match_witness :
  filter is_screen_entered
    (emitted (initial_state false)
       (main_step reads_Kiana zero_past (initial_state false) both_frame))
  = [mk_event EVENT_STIGMATA_SCREEN EmptyString].
Proof.
  apply one_entered_event_when_both_match.
  - vm_compute. reflexivity.
  - vm_compute. reflexivity.
  - reflexivity.
  - reflexivity.
Defined.

(** * Further properties *)

(** ** What the loops leave alone *)

Lemma for_unchanged (lo hi : Z) (body : Z -> mem -> mem) (M : mem) (a : Z) :
  (forall i M', lo <= i < hi -> body i M' a = M' a) ->
  for_ lo hi body M a = M a.
Proof.
  intros Hbody. destruct (Z.le_gt_cases lo hi) as [Hle|Hgt].
  - assert (H : hi <= hi -> for_ lo hi body M a = M a); [|apply H; lia].
    apply (for_ind lo body M (fun k r => k <= hi -> r a = M a)); [reflexivity| |exact Hle].
    intros i r Hi IH Hk. rewrite Hbody by lia. apply IH. lia.
  - now rewrite for_nil by lia.
Qed.

Lemma region_loop_unvisited g Channels Width M Image Height Stride a :
  ~ in_region Image Width Height Channels Stride a ->
  region_loop g Channels Width M Image Height Stride a = M a.
Proof.
  intros Hout. unfold region_loop. apply for_unchanged. intros y M1 Hy. cbv zeta.
  unfold row_loop. apply for_unchanged. intros x M2 Hx.
  unfold channel_loop. apply for_unchanged. intros c M3 Hc. cbv zeta.
  apply store_other. intros ->. apply Hout. now exists y, x, c.
Qed.

Lemma invert_image_region_loop M Image Width Height Channels Stride :
  invert_image M Image Width Height Channels Stride
  = region_loop (fun p => 255 - p) Channels Width M Image Height Stride.
Proof. reflexivity. Qed.

Lemma to_grayscale_unvisited M Image Width Height Stride a :
  ~ in_region Image Width Height 3 Stride a ->
  to_grayscale M Image Width Height 3 Stride a = M a.
Proof.
  intros Hout. unfold to_grayscale. apply for_unchanged. intros y M1 Hy. cbv zeta.
  apply for_unchanged. intros x M2 Hx.
  apply gray_pixel_out. intros Ha. apply Hout.
  exists y, x, (a - (Image + y * Stride + 3 * x)). repeat split; lia.
Qed.

Lemma change_contrast_unvisited M Image Width Height Channels Stride Contrast a :
  ~ in_region Image Width Height Channels Stride a ->
  change_contrast M Image Width Height Channels Stride Contrast a = M a.
Proof.
  intros Ha. rewrite change_contrast_region_loop. now apply region_loop_unvisited.
Qed.

Lemma invert_image_unvisited M Image Width Height Channels Stride a :
  ~ in_region Image Width Height Channels Stride a ->
  invert_image M Image Width Height Channels Stride a = M a.
Proof.
  intros Ha. rewrite invert_image_region_loop. now apply region_loop_unvisited.
Qed.

(** ** The transforms on a region whose rows do not overlap *)

(** X1. On a region whose rows do not overlap, [invert_image] replaces
    every channel value [p] of the region by [255 - p]; for every stride, it
    changes no byte outside the region. *)
Theorem invert_image_region M Image Width Height Channels Stride :
  bytes M ->
  (Channels * Width <= Stride ->
   forall y x Channel,
     0 <= y < Height -> 0 <= x < Width -> 0 <= Channel < Channels ->
     invert_image M Image Width Height Channels Stride
       (Image + y * Stride + Channels * x + Channel)
     = 255 - M (Image + y * Stride + Channels * x + Channel)) /\
  (forall a, ~ in_region Image Width Height Channels Stride a ->
     invert_image M Image Width Height Channels Stride a = M a).
Proof.
  intros HM. rewrite invert_image_region_loop. split.
  - intros HS y x c Hy Hx Hc. rewrite region_loop_in by assumption.
    apply Z.mod_small. pose proof (HM (Image + y * Stride + Channels * x + c)). lia.
  - intros a Ha. rewrite <- invert_image_region_loop. now apply invert_image_unvisited.
Qed.

Lemma invert_image_region_witness :
  invert_image black 0 1 1 3 3 (0 + 0 * 3 + 3 * 0 + 1)
  = 255 - black (0 + 0 * 3 + 3 * 0 + 1).
Proof.
  apply (proj1 (invert_image_region black 0 1 1 3 3 ltac:(intros p; unfold black; lia)));
    lia.
Defined.

Lemma contrast_value_four (p : Z) :
  0 <= p < 256 -> contrast_value F32.four p = clamp (4 * p - 638) 0 255.
Proof.
  intros Hp. apply Z.eqb_eq.
  apply (forallb_zrange (fun p => contrast_value F32.four p =? clamp (4 * p - 638) 0 255) 0 256);
    [vm_compute; reflexivity|assumption].
Qed.

Lemma contrast_value_range Contrast p : 0 <= contrast_value Contrast p < 256.
Proof.
  unfold contrast_value.
  match goal with |- 0 <= clamp ?v 0 255 < 256 =>
    pose proof (clamp_range v 0 255 ltac:(lia)) end. lia.
Qed.

(** X2. With the factor 4 that both scan paths use, [change_contrast]
    replaces every channel value [p] of a region whose rows do not overlap
    by [clamp (4 * p - 638) 0 255]: every value up to 159 becomes 0, every
    value from 224 on becomes 255. *)
Theorem change_contrast_four M Image Width Height Channels Stride y x Channel :
  bytes M ->
  Channels * Width <= Stride ->
  0 <= y < Height -> 0 <= x < Width -> 0 <= Channel < Channels ->
  change_contrast M Image Width Height Channels Stride F32.four
    (Image + y * Stride + Channels * x + Channel)
  = clamp (4 * M (Image + y * Stride + Channels * x + Channel) - 638) 0 255.
Proof.
  intros HM HS Hy Hx Hc. rewrite change_contrast_region_loop.
  rewrite region_loop_in by assumption.
  rewrite Z.mod_small by apply contrast_value_range.
  apply contrast_value_four, HM.
Qed.

Lemma change_contrast_four_witness :
  change_contrast white 0 1 1 3 3 F32.four (0 + 0 * 3 + 3 * 0 + 2)
  = clamp (4 * white (0 + 0 * 3 + 3 * 0 + 2) - 638) 0 255.
Proof.
  apply change_contrast_four; try lia. intros p. unfold white. lia.
Defined.

(** X3. For every factor, NaN and infinities included, [change_contrast]
    changes no byte outside the region it is given. *)
Theorem change_contrast_outside M Image Width Height Channels Stride Contrast a :
  ~ in_region Image Width Height Channels Stride a ->
  change_contrast M Image Width Height Channels Stride Contrast a = M a.
Proof.
  intros Ha. now apply change_contrast_unvisited.
Qed.

Lemma change_contrast_outside_witness :
  change_contrast white 0 1 1 3 3 S754_nan 3 = white 3.
Proof.
  apply change_contrast_outside. intros (y & x & c & Hy & Hx & Hc & H). lia.
Defined.

(** X4. What the recognizer is given for a stigmata box: [invert_image]
    followed by [change_contrast] with the factor 4 replaces every channel
    value [p] of the box by [clamp (382 - 4 * p) 0 255], so values up to 31
    become 255 and values from 96 on become 0. *)
Theorem invert_then_contrast M Image Width Height Channels Stride y x Channel :
  bytes M ->
  Channels * Width <= Stride ->
  0 <= y < Height -> 0 <= x < Width -> 0 <= Channel < Channels ->
  change_contrast (invert_image M Image Width Height Channels Stride)
    Image Width Height Channels Stride F32.four
    (Image + y * Stride + Channels * x + Channel)
  = clamp (382 - 4 * M (Image + y * Stride + Channels * x + Channel)) 0 255.
Proof.
  intros HM HS Hy Hx Hc. rewrite change_contrast_region_loop, invert_image_region_loop.
  rewrite !region_loop_in by assumption.
  pose proof (HM (Image + y * Stride + Channels * x + Channel)) as Hp.
  rewrite (Z.mod_small (255 - _)) by lia.
  rewrite Z.mod_small by apply contrast_value_range.
  rewrite contrast_value_four by lia. f_equal. lia.
Qed.

Lemma invert_then_contrast_witness :
  change_contrast (invert_image black 0 1 1 3 3) 0 1 1 3 3 F32.four (0 + 0 * 3 + 3 * 0 + 0)
  = clamp (382 - 4 * black (0 + 0 * 3 + 3 * 0 + 0)) 0 255.
Proof.
  apply invert_then_contrast; try lia. intros p. unfold black. lia.
Defined.

(** X5. On a 3-channel region whose rows do not overlap, [to_grayscale]
    gives the three channels of every pixel one value, the truncated luma
    [gray_value] of the pixel's former channels, which lies in 0..255; for
    every stride it changes no byte outside the region. *)
Theorem to_grayscale_region M Image Width Height Stride :
  (3 * Width <= Stride ->
   forall y x c,
     0 <= y < Height -> 0 <= x < Width -> 0 <= c < 3 ->
     let Pixel := Image + y * Stride + 3 * x in
     to_grayscale M Image Width Height 3 Stride (Pixel + c)
     = gray_value (M Pixel) (M (Pixel + 1)) (M (Pixel + 2)) /\
     0 <= to_grayscale M Image Width Height 3 Stride (Pixel + c) < 256) /\
  (forall a, ~ in_region Image Width Height 3 Stride a ->
     to_grayscale M Image Width Height 3 Stride a = M a).
Proof.
  split.
  - intros HS y x c Hy Hx Hc Pixel. unfold Pixel.
    rewrite to_grayscale_in by assumption. split; [reflexivity|apply gray_value_range].
  - intros a Ha. now apply to_grayscale_unvisited.
Qed.

Lemma to_grayscale_region_witness :
  to_grayscale green_pixel 0 1 1 3 3 (0 + 0 * 3 + 3 * 0 + 2)
  = gray_value (green_pixel (0 + 0 * 3 + 3 * 0))
      (green_pixel (0 + 0 * 3 + 3 * 0 + 1)) (green_pixel (0 + 0 * 3 + 3 * 0 + 2)) /\
  0 <= to_grayscale green_pixel 0 1 1 3 3 (0 + 0 * 3 + 3 * 0 + 2) < 256.
Proof.
  apply (proj1 (to_grayscale_region green_pixel 0 1 1 3)); lia.
Defined.

Lemma gray_value_settles (v : Z) :
  0 <= v < 256 ->
  gray_value (gray_value v v v) (gray_value v v v) (gray_value v v v) = gray_value v v v.
Proof.
  intros Hv. apply Z.eqb_eq.
  apply (forallb_zrange
           (fun v => gray_value (gray_value v v v) (gray_value v v v) (gray_value v v v)
                     =? gray_value v v v) 0 256);
    [vm_compute; reflexivity|assumption].
Qed.

(** X6. [to_grayscale] settles after two passes: on a 3-channel region
    whose rows do not overlap, a third application leaves every byte of the
    region as the second one left it. *)
Theorem to_grayscale_thrice M Image Width Height Stride y x c :
  3 * Width <= Stride ->
  0 <= y < Height -> 0 <= x < Width -> 0 <= c < 3 ->
  let once := to_grayscale M Image Width Height 3 Stride in
  let twice := to_grayscale once Image Width Height 3 Stride in
  let thrice := to_grayscale twice Image Width Height 3 Stride in
  let a := Image + y * Stride + 3 * x + c in
  thrice a = twice a.
Proof.
  intros HS Hy Hx Hc once twice thrice a. unfold thrice, a.
  rewrite to_grayscale_in by assumption.
  set (P := Image + y * Stride + 3 * x).
  assert (Honce : forall d, 0 <= d < 3 -> once (P + d) = once P).
  { intros d Hd. unfold once, P.
    replace (Image + y * Stride + 3 * x) with (Image + y * Stride + 3 * x + 0) at 2 by lia.
    rewrite !to_grayscale_in by (assumption || lia). reflexivity. }
  assert (Hrange : 0 <= once P < 256).
  { unfold once, P.
    replace (Image + y * Stride + 3 * x) with (Image + y * Stride + 3 * x + 0) by lia.
    rewrite to_grayscale_in by (assumption || lia). apply gray_value_range. }
  assert (Htwice : forall d, 0 <= d < 3 ->
            twice (P + d) = gray_value (once P) (once P) (once P)).
  { intros d Hd. unfold twice, P. rewrite to_grayscale_in by assumption.
    fold P. rewrite (Honce 1), (Honce 2) by lia. reflexivity. }
  replace (twice P) with (twice (P + 0)) by (f_equal; lia).
  rewrite !Htwice by lia. now apply gray_value_settles.
Qed.

Lemma to_grayscale_thrice_witness :
  to_grayscale (to_grayscale (to_grayscale green_pixel 0 1 1 3 3) 0 1 1 3 3) 0 1 1 3 3
    (0 + 0 * 3 + 3 * 0 + 0)
  = to_grayscale (to_grayscale green_pixel 0 1 1 3 3) 0 1 1 3 3 (0 + 0 * 3 + 3 * 0 + 0).
Proof.
  apply (to_grayscale_thrice green_pixel 0 1 1 3 0 0 0); lia.
Defined.

(** X7. What the recognizer is given for the name box: after
    [change_contrast] with the factor 4, [invert_image] and [to_grayscale],
    the three channels of every pixel of the box hold the truncated luma of
    the values [255 - clamp (4 * p - 638) 0 255] of its former channels. *)
Theorem name_box_transforms M Image Width Height Stride y x c :
  bytes M ->
  3 * Width <= Stride ->
  0 <= y < Height -> 0 <= x < Width -> 0 <= c < 3 ->
  let Pixel := Image + y * Stride + 3 * x in
  let prepared p := 255 - clamp (4 * p - 638) 0 255 in
  to_grayscale
    (invert_image (change_contrast M Image Width Height 3 Stride F32.four)
       Image Width Height 3 Stride)
    Image Width Height 3 Stride (Pixel + c)
  = gray_value (prepared (M Pixel)) (prepared (M (Pixel + 1))) (prepared (M (Pixel + 2))).
Proof.
  intros HM HS Hy Hx Hc Pixel prepared. unfold Pixel.
  rewrite to_grayscale_in by assumption.
  assert (H : forall d, 0 <= d < 3 ->
    invert_image (change_contrast M Image Width Height 3 Stride F32.four)
      Image Width Height 3 Stride (Image + y * Stride + 3 * x + d)
    = prepared (M (Image + y * Stride + 3 * x + d))).
  { intros d Hd. rewrite invert_image_region_loop, change_contrast_region_loop.
    rewrite !region_loop_in by (assumption || lia).
    pose proof (contrast_value_range F32.four (M (Image + y * Stride + 3 * x + d))) as Hr.
    rewrite (Z.mod_small (contrast_value _ _)) by exact Hr.
    rewrite Z.mod_small by lia.
    unfold prepared. now rewrite contrast_value_four by apply HM. }
  rewrite <- (Z.add_0_r (Image + y * Stride + 3 * x)) at 1.
  rewrite !H by lia. rewrite Z.add_0_r. reflexivity.
Qed.

Lemma name_box_transforms_witness :
  to_grayscale (invert_image (change_contrast white 0 1 1 3 3 F32.four) 0 1 1 3 3)
    0 1 1 3 3 (0 + 0 * 3 + 3 * 0 + 1)
  = gray_value (255 - clamp (4 * white (0 + 0 * 3 + 3 * 0) - 638) 0 255)
      (255 - clamp (4 * white (0 + 0 * 3 + 3 * 0 + 1) - 638) 0 255)
      (255 - clamp (4 * white (0 + 0 * 3 + 3 * 0 + 2) - 638) 0 255).
Proof.
  apply (name_box_transforms white 0 1 1 3 0 0 1); try lia. intros p. unfold white. lia.
Defined.

(** ** More on [replace_char] and [trim] *)

Lemma list_ascii_of_string_append (s t : string) :
  list_ascii_of_string (String.append s t) = list_ascii_of_string s ++ list_ascii_of_string t.
Proof. induction s as [|c s IH]; [reflexivity|]. cbn. now rewrite IH. Qed.

Lemma isspace_not_NUL (c : ascii) : isspace c = true -> Ascii.eqb c NUL = false.
Proof.
  intros Hc. destruct (Ascii.eqb_spec c NUL) as [->|]; [discriminate Hc|reflexivity].
Qed.

Lemma skip_leading_drop (l : list ascii) : skip_leading l = drop_leading_space l.
Proof.
  induction l as [|c l IH]; [reflexivity|]. cbn [skip_leading drop_leading_space].
  destruct (isspace c) eqn:Hc.
  - rewrite (isspace_not_NUL c Hc). exact IH.
  - now rewrite andb_false_r.
Qed.

Lemma drop_leading_space_head (l : list ascii) :
  match drop_leading_space l with
  | [] => True
  | c :: _ => isspace c = false
  end.
Proof.
  induction l as [|c l IH]; [exact I|]. cbn [drop_leading_space].
  destruct (isspace c) eqn:Hc; [exact IH|exact Hc].
Qed.

Lemma drop_leading_space_app (l r : list ascii) :
  drop_leading_space (l ++ r)
  = match drop_leading_space l with
    | [] => drop_leading_space r
    | c :: b => (c :: b) ++ r
    end.
Proof.
  induction l as [|c l IH]; [reflexivity|]. cbn [app drop_leading_space].
  destruct (isspace c); [exact IH|reflexivity].
Qed.

Lemma drop_leading_space_incl (l : list ascii) (c : ascii) :
  In c (drop_leading_space l) -> In c l.
Proof.
  induction l as [|d l IH]; [easy|]. cbn [drop_leading_space].
  destruct (isspace d); [intros H; right; now apply IH|easy].
Qed.

Lemma scan_terminator_app (b r : list ascii) :
  ~ In NUL b -> scan_terminator (b ++ r) = (List.length b + scan_terminator r)%nat.
Proof.
  induction b as [|c b IH]; intros Hb; [reflexivity|]. cbn [app scan_terminator List.length].
  destruct (Ascii.eqb_spec c NUL) as [->|_]; [exfalso; apply Hb; now left|].
  rewrite IH; [reflexivity|]. intros H. apply Hb. now right.
Qed.

(** [trim] on storage that ends in one whitespace character, the
    terminator and a byte that is not whitespace. *)
Lemma trim_one_trailing (l : list ascii) (c past : ascii) :
  ~ In NUL l -> isspace c = true -> isspace past = false ->
  let Str := skip_leading (l ++ [c; NUL; past]) in
  firstn (step_back Str (scan_terminator Str)) Str = drop_leading_space l.
Proof.
  intros Hl Hc Hpast Str. unfold Str. rewrite skip_leading_drop, drop_leading_space_app.
  destruct (drop_leading_space l) as [|c0 b] eqn:Eb.
  - cbn [drop_leading_space]. rewrite Hc. cbn. now rewrite Hpast.
  - assert (Hb : ~ In NUL (c0 :: b)).
    { intros H. apply Hl. apply drop_leading_space_incl. now rewrite Eb. }
    set (b0 := c0 :: b) in *.
    rewrite scan_terminator_app by exact Hb.
    cbn [scan_terminator]. rewrite (isspace_not_NUL c Hc), Ascii.eqb_refl.
    replace (List.length b0 + 2)%nat with (S (S (List.length b0))) by lia.
    cbn [step_back].
    rewrite (app_nth2 b0) by lia.
    replace (S (S (List.length b0)) - List.length b0)%nat with 2%nat by lia.
    cbn [nth]. rewrite Hpast.
    rewrite (app_nth2 b0) by lia.
    replace (S (List.length b0) - List.length b0)%nat with 1%nat by lia.
    cbn [nth]. change (isspace NUL) with false. cbv iota.
    assert (Hstop : step_back (b0 ++ [c; NUL; past]) (List.length b0) = List.length b0).
    { destruct (List.length b0) as [|n] eqn:En; [reflexivity|].
      cbn [step_back]. rewrite <- En. rewrite (app_nth2 b0) by lia.
      rewrite Nat.sub_diag. cbn [nth]. now rewrite Hc. }
    rewrite Hstop. rewrite firstn_app, Nat.sub_diag, firstn_all. cbn [firstn].
    apply app_nil_r.
Qed.

(** X8. [trim] returns what is expected of it on a text without zero
    characters that ends in exactly one more whitespace character than it
    should keep: the text without its leading whitespace and without that last
    character (the byte behind the terminator taken not to be whitespace).
    A text of whitespace only is trimmed to the empty text. *)
Theorem trim_one_trailing_space (s : string) (c past : ascii) :
  ~ In NUL (list_ascii_of_string s) ->
  isspace c = true ->
  isspace past = false ->
  trim (String.append s (String c EmptyString)) past
  = string_of_list_ascii (drop_leading_space (list_ascii_of_string s)).
Proof.
  intros Hs Hc Hpast. unfold trim, c_str.
  rewrite list_ascii_of_string_append. cbn [list_ascii_of_string].
  rewrite <- app_assoc. cbn [app].
  now rewrite trim_one_trailing.
Qed.

Lemma trim_one_trailing_space_witness :
  trim (String.append " Kiana Kaslana"%string (String "010"%char EmptyString)) NUL
  = string_of_list_ascii (drop_leading_space (list_ascii_of_string " Kiana Kaslana"%string)).
Proof.
  apply trim_one_trailing_space.
  - cbn. intros H. repeat (destruct H as [H|H]; [discriminate H|]). exact H.
  - reflexivity.
  - reflexivity.
Defined.

Lemma scan_terminator_bound (l r : list ascii) :
  (scan_terminator (l ++ NUL :: r) <= List.length l + 1)%nat.
Proof.
  induction l as [|c l IH]; cbn [app scan_terminator List.length].
  - rewrite Ascii.eqb_refl. lia.
  - destruct (Ascii.eqb c NUL); lia.
Qed.

Lemma step_back_le (l : list ascii) (n : nat) : (step_back l n <= n)%nat.
Proof.
  induction n as [|n IH]; [reflexivity|]. cbn [step_back].
  destruct (isspace (nth (S n) l NUL)); lia.
Qed.

Lemma drop_leading_space_c_str (l r : list ascii) :
  exists l1, drop_leading_space (l ++ NUL :: r) = l1 ++ NUL :: r /\
             (List.length l1 <= List.length l)%nat.
Proof.
  induction l as [|c l IH].
  - exists []. split; [reflexivity|cbn; lia].
  - cbn [app drop_leading_space]. destruct (isspace c).
    + destruct IH as (l1 & -> & Hl1). exists l1. split; [reflexivity|cbn; lia].
    + exists (c :: l). split; [reflexivity|cbn; lia].
Qed.

Lemma length_string_of_list_ascii (l : list ascii) :
  String.length (string_of_list_ascii l) = List.length l.
Proof. induction l as [|c l IH]; [reflexivity|]. cbn. now rewrite IH. Qed.

Lemma length_list_ascii_of_string (t : string) :
  List.length (list_ascii_of_string t) = String.length t.
Proof. induction t as [|c t IH]; [reflexivity|]. cbn. now rewrite IH. Qed.

Lemma trim_head (s : string) (past : ascii) : no_leading_space (trim s past).
Proof.
  unfold trim. rewrite skip_leading_drop.
  pose proof (drop_leading_space_head (c_str s past)) as Hhead.
  destruct (drop_leading_space (c_str s past)) as [|c0 Str'];
    [destruct (step_back _ _); exact I|].
  destruct (step_back (c0 :: Str') (scan_terminator (c0 :: Str'))); [exact I|exact Hhead].
Qed.

(** X9. Whatever the text and the byte behind its terminator, the text
    [trim] returns does not begin with a whitespace character, and it is
    never longer than the text with its terminator. *)
Theorem trim_no_leading_space (s : string) (past : ascii) :
  no_leading_space (trim s past) /\
  (String.length (trim s past) <= String.length s + 1)%nat.
Proof.
  split; [apply trim_head|].
  unfold trim. rewrite skip_leading_drop.
  destruct (drop_leading_space_c_str (list_ascii_of_string s) [past]) as (l1 & Hstr & Hl1).
  fold (c_str s past) in Hstr.
  rewrite length_list_ascii_of_string in Hl1.
  set (Str := drop_leading_space (c_str s past)) in *.
  - rewrite length_string_of_list_ascii, length_firstn.
    pose proof (step_back_le Str (scan_terminator Str)) as Hback.
    pose proof (scan_terminator_bound l1 [past]) as Hscan. rewrite <- Hstr in Hscan.
    lia.
Qed.

Lemma replace_char_list (Str : string) (a b : ascii) :
  ~ In NUL (list_ascii_of_string Str) -> b <> NUL ->
  list_ascii_of_string (replace_char Str a b)
  = map (fun c => if Ascii.eqb c a then b else c) (list_ascii_of_string Str).
Proof.
  intros HStr Hb. induction Str as [|c Str IH]; [reflexivity|].
  cbn [list_ascii_of_string] in HStr. cbn [replace_char list_ascii_of_string map].
  destruct (Ascii.eqb_spec c NUL) as [->|Hc]; [exfalso; apply HStr; now left|].
  assert (Hc' : Ascii.eqb (if Ascii.eqb c a then b else c) NUL = false).
  { destruct (Ascii.eqb c a); now apply Ascii.eqb_neq. }
  rewrite Hc'. cbn [list_ascii_of_string]. f_equal. apply IH. intros H. apply HStr. now right.
Qed.

Lemma replace_char_removes (Str : string) (a b : ascii) :
  a <> b -> ~ In a (list_ascii_of_string (replace_char Str a b)).
Proof.
  intros Hab. induction Str as [|c Str IH]; [easy|]. cbn [replace_char].
  destruct (Ascii.eqb c NUL); [easy|].
  destruct (Ascii.eqb (if Ascii.eqb c a then b else c) NUL); [easy|].
  cbn [list_ascii_of_string]. intros [H|H]; [|now apply IH].
  destruct (Ascii.eqb_spec c a) as [->|Hca]; congruence.
Qed.

(** X10. [replace_char] leaves no occurrence of [ToReplace] in its result
    when [ReplaceWith] is a different character; and on a text without zero
    characters, with [ReplaceWith] not zero, the result is the text with
    each occurrence replaced and every other character kept, so of the same
    length. *)
Theorem replace_char_replaces (Str : string) (ToReplace ReplaceWith : ascii) :
  (ToReplace <> ReplaceWith ->
   ~ In ToReplace (list_ascii_of_string (replace_char Str ToReplace ReplaceWith))) /\
  (~ In NUL (list_ascii_of_string Str) -> ReplaceWith <> NUL ->
   list_ascii_of_string (replace_char Str ToReplace ReplaceWith)
   = map (fun c => if Ascii.eqb c ToReplace then ReplaceWith else c)
         (list_ascii_of_string Str) /\
   String.length (replace_char Str ToReplace ReplaceWith) = String.length Str).
Proof.
  split; [apply replace_char_removes|].
  intros HStr Hb. split; [now apply replace_char_list|].
  rewrite <- !length_list_ascii_of_string, replace_char_list by assumption.
  apply length_map.
Qed.

Lemma replace_char_replaces_witness :
  ~ In "010"%char
      (list_ascii_of_string (replace_char two_blank_lines "010"%char " "%char)) /\
  list_ascii_of_string (replace_char two_blank_lines "010"%char " "%char)
  = map (fun c => if Ascii.eqb c "010"%char then " "%char else c)
        (list_ascii_of_string two_blank_lines) /\
  String.length (replace_char two_blank_lines "010"%char " "%char)
  = String.length two_blank_lines.
Proof.
  destruct (replace_char_replaces two_blank_lines "010"%char " "%char) as [H1 H2].
  split.
  - apply H1. discriminate.
  - apply H2.
    + cbn. intros H. repeat (destruct H as [H|H]; [discriminate H|]). exact H.
    + discriminate.
Defined.

(** X11. A recognizer text without zero characters that ends in one
    newline is recorded with every newline turned into a space, without its
    leading whitespace and without the final newline (the byte behind the
    terminator taken not to be whitespace).  Whitespace right before the
    final newline is kept. *)
Theorem recognized_text_of_line (past_end : string -> ascii) (Str : string) :
  ~ In NUL (list_ascii_of_string Str) ->
  isspace (past_end (replace_char (String.append Str (String "010"%char EmptyString))
                       "010"%char " "%char)) = false ->
  recognized_text past_end (String.append Str (String "010"%char EmptyString))
  = string_of_list_ascii
      (drop_leading_space
         (map (fun c => if Ascii.eqb c "010"%char then " "%char else c)
              (list_ascii_of_string Str))).
Proof.
  intros HStr Hpast. unfold recognized_text.
  set (Replaced := replace_char _ _ _) in *.
  assert (HR : list_ascii_of_string Replaced
               = map (fun c => if Ascii.eqb c "010"%char then " "%char else c)
                     (list_ascii_of_string Str) ++ [" "%char]).
  { unfold Replaced. rewrite replace_char_list.
    - rewrite list_ascii_of_string_append, map_app. reflexivity.
    - rewrite list_ascii_of_string_append. intros H. apply in_app_or in H.
      destruct H as [H|[H|[]]]; [now apply HStr|discriminate H].
    - discriminate. }
  unfold trim, c_str. rewrite HR, <- app_assoc. cbn [app].
  rewrite trim_one_trailing; [reflexivity| |reflexivity|exact Hpast].
  intros H. apply in_map_iff in H. destruct H as (c & Hc & Hin).
  destruct (Ascii.eqb c "010"%char); [discriminate Hc|]. subst c. now apply HStr.
Qed.

Lemma recognized_text_of_line_witness :
  recognized_text zero_past (String.append "Kiana"%string (String "010"%char EmptyString))
  = string_of_list_ascii
      (drop_leading_space
         (map (fun c => if Ascii.eqb c "010"%char then " "%char else c)
              (list_ascii_of_string "Kiana"%string))).
Proof.
  apply recognized_text_of_line.
  - cbn. intros H. repeat (destruct H as [H|H]; [discriminate H|]). exact H.
  - reflexivity.
Defined.

(** ** More on the frame loop *)

Lemma frame_block_counts block :
  frame_block block ->
  count_events EVENT_VALKYRIE_NAME block = count_events EVENT_STIGMATA_SCREEN block /\
  count_events EVENT_STIGMATA block = (3 * count_events EVENT_STIGMATA_SCREEN block)%nat /\
  List.length (flat_map output_event block) = List.length block /\
  (List.length (filter is_screen_entered block) <= 1)%nat.
Proof. intros []; repeat split; cbn; lia. Qed.

Lemma log_blocks_app l1 l2 : log_blocks l1 -> log_blocks l2 -> log_blocks (l1 ++ l2).
Proof.
  induction 1 as [|block rest Hb Hrest IH]; intros H2; [exact H2|].
  rewrite <- app_assoc. constructor; [exact Hb|now apply IH].
Qed.

Lemma log_blocks_counts l :
  log_blocks l ->
  count_events EVENT_VALKYRIE_NAME l = count_events EVENT_STIGMATA_SCREEN l /\
  count_events EVENT_STIGMATA l = (3 * count_events EVENT_STIGMATA_SCREEN l)%nat /\
  List.length (flat_map output_event l) = List.length l.
Proof.
  induction 1 as [|block rest Hb Hrest (IH1 & IH2 & IH3)]; [repeat split|].
  destruct (frame_block_counts block Hb) as (H1 & H2 & H3 & _).
  rewrite !count_events_app, flat_map_app, !length_app. repeat split; lia.
Qed.

Section PipelineMore.

Variable GetUTF8Text : mem -> Z -> Z -> Z -> Z -> Z -> string.
Variable past_end : string -> ascii.

Lemma scan_stigmata_screen_texts State RefFrame :
  exists s1 s2 s3 s4,
    fst (scan_stigmata_screen GetUTF8Text past_end State RefFrame)
    = mk_state (Width State) (Height State)
        (Events State ++
           [mk_event EVENT_STIGMATA_SCREEN EmptyString;
            mk_event EVENT_VALKYRIE_NAME (recognized_text past_end s1);
            mk_event EVENT_STIGMATA (recognized_text past_end s2);
            mk_event EVENT_STIGMATA (recognized_text past_end s3);
            mk_event EVENT_STIGMATA (recognized_text past_end s4)])
        (HadStigmataScreenIndicator State) (HadLineupScreenIndicator State)
        (StigmataFrameIndex State + 1) (LineupFrameIndex State).
Proof.
  unfold scan_stigmata_screen.
  cbv beta iota zeta delta [fold_left add_event set_Events set_StigmataFrameIndex fst snd
    Width Height Events HadStigmataScreenIndicator HadLineupScreenIndicator
    StigmataFrameIndex LineupFrameIndex].
  destruct State as [W H Ev HS HL SI LI].
  do 4 eexists. rewrite <- !app_assoc. cbn [app]. reflexivity.
Qed.

(** One frame, in full: the block it appends, and the counters. *)
Lemma main_step_full State RefFrame :
  exists new,
    Events (main_step GetUTF8Text past_end State RefFrame) = Events State ++ new /\
    frame_block new /\
    Forall (fun e => no_leading_space (Value e)) new /\
    StigmataFrameIndex (main_step GetUTF8Text past_end State RefFrame)
    = StigmataFrameIndex State + Z.of_nat (count_events EVENT_STIGMATA_SCREEN new) /\
    LineupFrameIndex (main_step GetUTF8Text past_end State RefFrame)
    = LineupFrameIndex State + Z.of_nat (count_events EVENT_LINEUP_SCREEN new).
Proof.
  unfold main_step.
  destruct State as [W H Ev HS HL SI LI].
  cbn [Width Height Events HadStigmataScreenIndicator HadLineupScreenIndicator
       StigmataFrameIndex LineupFrameIndex andb].
  destruct (screen_test RefFrame (mk_Size W H) StigmataScreenIndicators
              StigmataScreenThresholdConfidence) eqn:Es.
  - destruct HS; cbn [negb andb].
    + exists []. cbn [Events StigmataFrameIndex LineupFrameIndex].
      repeat split; [now rewrite app_nil_r|constructor|constructor|cbn; lia|cbn; lia].
    + destruct (scan_stigmata_screen_texts
                  (set_HadStigmataScreenIndicator (mk_state W H Ev false HL SI LI) true)
                  RefFrame) as (s1 & s2 & s3 & s4 & Hscan).
      destruct (scan_stigmata_screen GetUTF8Text past_end _ RefFrame) as [State' Frame'].
      cbn [fst] in Hscan. subst State'.
      eexists. cbn [Events StigmataFrameIndex LineupFrameIndex
                    set_HadLineupScreenIndicator set_HadStigmataScreenIndicator
                    Width Height HadStigmataScreenIndicator HadLineupScreenIndicator].
      split; [reflexivity|]. split; [constructor|].
      split; [|split; cbn; lia].
      repeat constructor; cbn [Value]; unfold recognized_text; apply trim_head.
  - cbn [negb andb].
    destruct (screen_test RefFrame (mk_Size W H) LineupScreenIndicators
                LineupScreenThresholdConfidence) eqn:El.
    + destruct HL; cbn [negb andb].
      * exists []. cbn [Events StigmataFrameIndex LineupFrameIndex].
        repeat split; [now rewrite app_nil_r|constructor|constructor|cbn; lia|cbn; lia].
      * eexists. cbn [Events StigmataFrameIndex LineupFrameIndex].
        split; [reflexivity|]. split; [constructor|].
        split; [repeat constructor|split; cbn; lia].
    + exists []. cbn [Events StigmataFrameIndex LineupFrameIndex].
      repeat split; [now rewrite app_nil_r|constructor|constructor|cbn; lia|cbn; lia].
Qed.

Lemma main_loop_full Frames : forall State,
  exists new,
    Events (main_loop GetUTF8Text past_end State Frames) = Events State ++ new /\
    log_blocks new /\
    Forall (fun e => no_leading_space (Value e)) new /\
    StigmataFrameIndex (main_loop GetUTF8Text past_end State Frames)
    = StigmataFrameIndex State + Z.of_nat (count_events EVENT_STIGMATA_SCREEN new) /\
    LineupFrameIndex (main_loop GetUTF8Text past_end State Frames)
    = LineupFrameIndex State + Z.of_nat (count_events EVENT_LINEUP_SCREEN new).
Proof.
  induction Frames as [|F Frames IH]; intros State.
  - exists []. split; [symmetry; apply app_nil_r|]. split; [constructor|].
    split; [constructor|]. split; cbn; lia.
  - rewrite main_loop_cons.
    destruct (main_step_full State F) as (new1 & HE1 & HB1 & HV1 & HS1 & HL1).
    destruct (IH (main_step GetUTF8Text past_end State F))
      as (new2 & HE2 & HB2 & HV2 & HS2 & HL2).
    exists (new1 ++ new2). split; [rewrite HE2, HE1; now rewrite app_assoc|].
    split; [rewrite <- (app_nil_r new1) at 1;
            apply log_blocks_app; [constructor; [exact HB1|constructor]|exact HB2]|].
    split; [apply Forall_app; split; assumption|].
    rewrite !count_events_app. split; lia.
Qed.

(** X12. The log only grows, and by whole blocks: after any frames the
    log is the log before them followed by the events emitted, and those
    are a sequence of blocks, each one a Lineup entry or a Stigmata entry
    followed by its name and its three slots; the sizes stay. *)
Theorem main_loop_appends_blocks (State : state_t) (Frames : list mem) :
  let After := main_loop GetUTF8Text past_end State Frames in
  Events After = Events State ++ emitted State After /\
  log_blocks (emitted State After) /\
  Width After = Width State /\ Height After = Height State.
Proof.
  intros After.
  destruct (main_loop_full Frames State) as (new & HE & HB & _).
  destruct (main_loop_tag GetUTF8Text past_end Stigmata Frames State) as (HW & HH & _).
  rewrite (emitted_app State After new HE). repeat split; assumption.
Qed.

(** X13. In the events emitted over any frames there is one name field
    for every Stigmata entry and three stigmata fields for every Stigmata
    entry. *)
Theorem fields_per_stigmata_entry (State : state_t) (Frames : list mem) :
  let new := emitted State (main_loop GetUTF8Text past_end State Frames) in
  count_events EVENT_VALKYRIE_NAME new = count_events EVENT_STIGMATA_SCREEN new /\
  count_events EVENT_STIGMATA new = (3 * count_events EVENT_STIGMATA_SCREEN new)%nat.
Proof.
  intros new0. destruct (main_loop_full Frames State) as (new & HE & HB & _).
  unfold new0. rewrite (emitted_app State _ new HE).
  destruct (log_blocks_counts new HB) as (H1 & H2 & _). split; assumption.
Qed.

(** X14. The two counters that number the saved frames advance by one per
    entry: after any frames, [StigmataFrameIndex] has grown by the number
    of Stigmata entries emitted and [LineupFrameIndex] by the number of
    Lineup entries emitted. *)
Theorem frame_indices_count_entries (State : state_t) (Frames : list mem) :
  let After := main_loop GetUTF8Text past_end State Frames in
  StigmataFrameIndex After
  = StigmataFrameIndex State
    + Z.of_nat (count_events EVENT_STIGMATA_SCREEN (emitted State After)) /\
  LineupFrameIndex After
  = LineupFrameIndex State
    + Z.of_nat (count_events EVENT_LINEUP_SCREEN (emitted State After)).
Proof.
  intros After. destruct (main_loop_full Frames State) as (new & HE & _ & _ & HS & HL).
  rewrite (emitted_app State After new HE). split; assumption.
Qed.

(** X15. No text recorded by the frame loop begins with a whitespace
    character, whatever the recognizer returns. *)
Theorem recorded_values_no_leading_space (State : state_t) (Frames : list mem) :
  Forall (fun e => no_leading_space (Value e))
    (emitted State (main_loop GetUTF8Text past_end State Frames)).
Proof.
  destruct (main_loop_full Frames State) as (new & HE & _ & HV & _).
  now rewrite (emitted_app State _ new HE).
Qed.

(** X16. After every frame at most one of the two latches is set. *)
Theorem latches_exclusive (State : state_t) (RefFrame : mem) :
  HadStigmataScreenIndicator (main_step GetUTF8Text past_end State RefFrame)
  && HadLineupScreenIndicator (main_step GetUTF8Text past_end State RefFrame) = false.
Proof.
  destruct (main_step_spec GetUTF8Text past_end State RefFrame) as (new & SI & LI & -> & _).
  cbn [HadStigmataScreenIndicator HadLineupScreenIndicator]. unfold latch_input.
  destruct (verdict State Stigmata RefFrame); reflexivity.
Qed.

(** X17. Whatever the state and the frame, one frame emits at most one
    screen-entered event. *)
Theorem one_entered_event_per_frame (State : state_t) (RefFrame : mem) :
  (List.length
     (filter is_screen_entered
        (emitted State (main_step GetUTF8Text past_end State RefFrame))) <= 1)%nat.
Proof.
  destruct (main_step_full State RefFrame) as (new & HE & HB & _).
  rewrite (emitted_app State _ new HE).
  now destruct (frame_block_counts new HB) as (_ & _ & _ & H).
Qed.

(** X18. Over any frames, the number of entered events of a tag is the
    number of rising edges of the input of its latch: frames that drive the
    latch while the frame before did not (for the first frame, while the
    latch was not set).  One frame that does not drive the latch inside a
    longer presentation thus makes a second entry. *)
Theorem entered_events_are_rising_edges (t : tag) (State : state_t) (Frames : list mem) :
  count_events (entered_event t)
    (emitted State (main_loop GetUTF8Text past_end State Frames))
  = rising_edges t State (latch_state State t) Frames.
Proof.
  destruct (main_loop_tag GetUTF8Text past_end t Frames State) as (_ & _ & new & HE & HC).
  now rewrite (emitted_app State _ new HE).
Qed.

(** X19. [output_events] prints every event of a run of [main]: from the
    empty log, after any frames, it writes exactly one line per event of
    the log; no event falls into the default case. *)
Theorem output_events_one_line_per_event (HadLineup0 : bool) (Frames : list mem) :
  let After := main_loop GetUTF8Text past_end (initial_state HadLineup0) Frames in
  List.length (output_events After) = List.length (Events After).
Proof.
  intros After.
  destruct (main_loop_full Frames (initial_state HadLineup0)) as (new & HE & HB & _).
  unfold output_events. fold After in HE. rewrite HE. cbn [initial_state Events app].
  now destruct (log_blocks_counts new HB) as (_ & _ & H).
Qed.

End PipelineMore.

(** ** [screen_test] reads the anchor pixels only *)

Lemma fold_left_ext_in {A B : Type} (f g : A -> B -> A) (l : list B) :
  (forall a b, In b l -> f a b = g a b) -> forall a, fold_left f l a = fold_left g l a.
Proof.
  induction l as [|b l IH]; intros H a; [reflexivity|]. cbn [fold_left].
  rewrite (H a b) by now left. apply IH. intros a' b' Hb'. apply H. now right.
Qed.

(** X20. The verdict of [screen_test] depends on the frame only through the
    three channels of each anchor pixel: two frames that agree there get the
    same confidence and the same verdict, whatever else differs. *)
Theorem screen_test_reads_anchors (Frame1 Frame2 : mem) TargetSize TestPixels Threshold :
  (forall t c, In t TestPixels -> 0 <= c < 3 ->
     Frame1 (3 * (width TargetSize * y t + x t) + c)
     = Frame2 (3 * (width TargetSize * y t + x t) + c)) ->
  screen_confidence Frame1 TargetSize TestPixels
  = screen_confidence Frame2 TargetSize TestPixels /\
  screen_test Frame1 TargetSize TestPixels Threshold
  = screen_test Frame2 TargetSize TestPixels Threshold.
Proof.
  intros Hagree.
  assert (Hc : screen_confidence Frame1 TargetSize TestPixels
               = screen_confidence Frame2 TargetSize TestPixels).
  { unfold screen_confidence, screen_indicator. f_equal.
    apply fold_left_ext_in. intros Indicator t Ht.
    unfold screen_test_step, load.
    now rewrite (Hagree t 0 Ht), (Hagree t 1 Ht), (Hagree t 2 Ht) by lia. }
  split; [exact Hc|]. unfold screen_test. now rewrite Hc.
Qed.

Lemma screen_test_reads_anchors_witness :
  screen_confidence stigmata_frame FullHD StigmataScreenIndicators
  = screen_confidence both_frame FullHD StigmataScreenIndicators /\
  screen_test stigmata_frame FullHD StigmataScreenIndicators StigmataScreenThresholdConfidence
  = screen_test both_frame FullHD StigmataScreenIndicators StigmataScreenThresholdConfidence.
Proof.
  apply screen_test_reads_anchors.
  intros t c Ht Hc.
  assert (c = 0 \/ c = 1 \/ c = 2) as [->|[->| ->]] by lia;
    repeat (destruct Ht as [<-|Ht]; [vm_compute; reflexivity|]); destruct Ht.
Defined.

(** ** [log_timestamp] *)

(** X21. The four fields [log_timestamp] prints put the position back
    together, [((hours * 60 + minutes) * 60 + seconds) * 1000 +
    milliseconds], for every position; for a position that is not negative
    the milliseconds are below 1000, the seconds and minutes below 60, and
    no field is negative. *)
Theorem log_timestamp_fields (timer : Z) :
  let t := log_timestamp timer in
  timer = ((hours t * 60 + minutes t) * 60 + seconds t) * 1000 + milliseconds t /\
  (0 <= timer ->
   0 <= milliseconds t < 1000 /\ 0 <= seconds t < 60 /\ 0 <= minutes t < 60 /\
   0 <= hours t).
Proof.
  unfold log_timestamp. cbn [hours minutes seconds milliseconds].
  pose proof (Z.quot_rem' timer 1000) as H1.
  pose proof (Z.quot_rem' (Z.quot timer 1000) 60) as H2.
  pose proof (Z.quot_rem' (Z.quot (Z.quot timer 1000) 60) 60) as H3.
  split; [lia|]. intros Ht.
  assert (H4 : 0 <= Z.quot timer 1000) by (apply Z.quot_pos; lia).
  assert (H5 : 0 <= Z.quot (Z.quot timer 1000) 60) by (apply Z.quot_pos; lia).
  assert (H6 : 0 <= Z.quot (Z.quot (Z.quot timer 1000) 60) 60) by (apply Z.quot_pos; lia).
  pose proof (Z.rem_bound_pos timer 1000 Ht ltac:(lia)).
  pose proof (Z.rem_bound_pos _ 60 H4 ltac:(lia)).
  pose proof (Z.rem_bound_pos _ 60 H5 ltac:(lia)).
  lia.
Qed.

Lemma log_timestamp_fields_witness :
  3723004 = ((hours (log_timestamp 3723004) * 60 + minutes (log_timestamp 3723004)) * 60
             + seconds (log_timestamp 3723004)) * 1000
            + milliseconds (log_timestamp 3723004) /\
  0 <= milliseconds (log_timestamp 3723004) < 1000 /\
  0 <= seconds (log_timestamp 3723004) < 60 /\
  0 <= minutes (log_timestamp 3723004) < 60 /\
  0 <= hours (log_timestamp 3723004).
Proof.
  destruct (log_timestamp_fields 3723004) as [H1 H2].
  split; [exact H1|]. apply H2. lia.
Defined.

(** ** [draw_indicator] *)

Lemma put_pixel_other M Pixels Index B G R a :
  ~ (Pixels + 3 * Index <= a < Pixels + 3 * Index + 3) ->
  put_pixel M Pixels Index B G R a = M a.
Proof. intros Ha. unfold put_pixel. rewrite !store_other by lia. reflexivity. Qed.

Lemma put_pixel_green M Pixels Index :
  put_pixel M Pixels Index 0 255 0 (Pixels + (3 * Index + 0)) = 0 /\
  put_pixel M Pixels Index 0 255 0 (Pixels + (3 * Index + 1)) = 255 /\
  put_pixel M Pixels Index 0 255 0 (Pixels + (3 * Index + 2)) = 0.
Proof.
  unfold put_pixel. repeat split.
  - rewrite !store_other by lia. now rewrite store_same.
  - rewrite store_other by lia. now rewrite store_same.
  - now rewrite store_same.
Qed.

Lemma clamp_bounds a n : 0 <= n -> 0 <= clamp a 0 n <= n.
Proof. intros Hn. apply clamp_range. exact Hn. Qed.

(** X22. For a centre inside the frame, [draw_indicator] writes inside the
    frame only: no byte outside the [3 * Width * Height] bytes of the frame
    is changed. *)
Theorem draw_indicator_in_frame M Pixels Width Height x y a :
  0 <= x < Width -> 0 <= y < Height ->
  ~ (Pixels <= a < Pixels + 3 * (Width * Height)) ->
  draw_indicator M Pixels Width Height x y a = M a.
Proof.
  intros Hx Hy Ha. unfold draw_indicator. cbv zeta.
  pose proof (clamp_bounds (x - Z.quot 32 2) (Width - 1) ltac:(lia)).
  pose proof (clamp_bounds (x + Z.quot 32 2) (Width - 1) ltac:(lia)).
  pose proof (clamp_bounds (y - Z.quot 32 2) (Height - 1) ltac:(lia)).
  pose proof (clamp_bounds (y + Z.quot 32 2) (Height - 1) ltac:(lia)).
  rewrite for_unchanged.
  - apply for_unchanged. intros i M' Hi. apply put_pixel_other. nia.
  - intros i M' Hi. apply put_pixel_other. nia.
Qed.

Lemma draw_indicator_in_frame_witness :
  draw_indicator black 0 1920 1080 120 200 (3 * (1920 * 1080)) = black (3 * (1920 * 1080)).
Proof.
  apply draw_indicator_in_frame; lia.
Defined.

(** The pixel with the index [Index] is green: [B = 0], [G = 255], [R = 0]. *)
Lemma put_pixel_keeps_green M Pixels Index Index' :
  (M (Pixels + (3 * Index' + 0)) = 0 /\ M (Pixels + (3 * Index' + 1)) = 255 /\
   M (Pixels + (3 * Index' + 2)) = 0) ->
  put_pixel M Pixels Index 0 255 0 (Pixels + (3 * Index' + 0)) = 0 /\
  put_pixel M Pixels Index 0 255 0 (Pixels + (3 * Index' + 1)) = 255 /\
  put_pixel M Pixels Index 0 255 0 (Pixels + (3 * Index' + 2)) = 0.
Proof.
  intros (H0 & H1 & H2). destruct (Z.eq_dec Index Index') as [->|Hne].
  - apply put_pixel_green.
  - rewrite !put_pixel_other by lia. repeat split; assumption.
Qed.

Lemma for_put_pixel_green (f : Z -> Z) Pixels lo hi M :
  (forall Index,
     (M (Pixels + (3 * Index + 0)) = 0 /\ M (Pixels + (3 * Index + 1)) = 255 /\
      M (Pixels + (3 * Index + 2)) = 0) \/ (exists i, lo <= i < hi /\ Index = f i) ->
     let M' := for_ lo hi (fun i M => put_pixel M Pixels (f i) 0 255 0) M in
     M' (Pixels + (3 * Index + 0)) = 0 /\ M' (Pixels + (3 * Index + 1)) = 255 /\
     M' (Pixels + (3 * Index + 2)) = 0).
Proof.
  intros Index HIndex M'. unfold M'.
  destruct (Z.le_gt_cases lo hi) as [Hle|Hgt].
  - assert (H : hi <= hi ->
      forall Index,
        (M (Pixels + (3 * Index + 0)) = 0 /\ M (Pixels + (3 * Index + 1)) = 255 /\
         M (Pixels + (3 * Index + 2)) = 0) \/ (exists i, lo <= i < hi /\ Index = f i) ->
        let r := for_ lo hi (fun i M => put_pixel M Pixels (f i) 0 255 0) M in
        r (Pixels + (3 * Index + 0)) = 0 /\ r (Pixels + (3 * Index + 1)) = 255 /\
        r (Pixels + (3 * Index + 2)) = 0); [|now apply H; [lia|]].
    apply (for_ind lo (fun i M => put_pixel M Pixels (f i) 0 255 0) M
             (fun k r => k <= hi -> forall Index,
                (M (Pixels + (3 * Index + 0)) = 0 /\ M (Pixels + (3 * Index + 1)) = 255 /\
                 M (Pixels + (3 * Index + 2)) = 0) \/ (exists i, lo <= i < k /\ Index = f i) ->
                r (Pixels + (3 * Index + 0)) = 0 /\ r (Pixels + (3 * Index + 1)) = 255 /\
                r (Pixels + (3 * Index + 2)) = 0)); [| |exact Hle].
    + intros _ Idx [H|(i & Hi & _)]; [exact H|lia].
    + intros k r Hk IH Hkhi Idx [H|(i & Hi & ->)].
      * apply put_pixel_keeps_green. apply IH; [lia|now left].
      * destruct (Z.eq_dec i k) as [->|Hne]; [apply put_pixel_green|].
        apply put_pixel_keeps_green. apply IH; [lia|]. right. exists i. split; [lia|reflexivity].
  - rewrite for_nil by lia. destruct HIndex as [H|(i & Hi & _)]; [exact H|lia].
Qed.

(** X23. [draw_indicator] draws a green cross: after it, every pixel of
    row [y] from column [clamp (x - 16) 0 (Width - 1)] up to, not
    including, column [clamp (x + 16) 0 (Width - 1)] holds [B = 0],
    [G = 255], [R = 0], and so does every pixel of column [x] from row
    [clamp (y - 16) 0 (Height - 1)] up to, not including, row
    [clamp (y + 16) 0 (Height - 1)]. *)
Theorem draw_indicator_cross M Pixels Width Height x y i :
  let M' := draw_indicator M Pixels Width Height x y in
  let green Index :=
    M' (Pixels + (3 * Index + 0)) = 0 /\ M' (Pixels + (3 * Index + 1)) = 255 /\
    M' (Pixels + (3 * Index + 2)) = 0 in
  (clamp (x - 16) 0 (Width - 1) <= i < clamp (x + 16) 0 (Width - 1) ->
   green (Width * y + i)) /\
  (clamp (y - 16) 0 (Height - 1) <= i < clamp (y + 16) 0 (Height - 1) ->
   green (Width * i + x)).
Proof.
  intros M' green. unfold green, M', draw_indicator. cbv zeta.
  change (Z.quot 32 2) with 16. split; intros Hi.
  - apply (for_put_pixel_green (fun i => Width * i + x)). left.
    apply (for_put_pixel_green (fun i => Width * y + i)). right. now exists i.
  - apply (for_put_pixel_green (fun i => Width * i + x)). right. now exists i.
Qed.

Lemma draw_indicator_cross_witness :
  (draw_indicator black 0 1920 1080 120 200 (0 + (3 * (1920 * 200 + 110) + 0)) = 0 /\
   draw_indicator black 0 1920 1080 120 200 (0 + (3 * (1920 * 200 + 110) + 1)) = 255 /\
   draw_indicator black 0 1920 1080 120 200 (0 + (3 * (1920 * 200 + 110) + 2)) = 0) /\
  (draw_indicator black 0 1920 1080 120 200 (0 + (3 * (1920 * 190 + 120) + 0)) = 0 /\
   draw_indicator black 0 1920 1080 120 200 (0 + (3 * (1920 * 190 + 120) + 1)) = 255 /\
   draw_indicator black 0 1920 1080 120 200 (0 + (3 * (1920 * 190 + 120) + 2)) = 0).
Proof.
  split.
  - apply (proj1 (draw_indicator_cross black 0 1920 1080 120 200 110)).
    unfold clamp. lia.
  - apply (proj2 (draw_indicator_cross black 0 1920 1080 120 200 190)).
    unfold clamp. lia.
Defined.

(** ** What [scan_stigmata_screen] does to the frame *)

(** X24. [scan_stigmata_screen] changes the frame inside the name box and
    the three stigmata boxes only: every byte that is not a channel of a
    pixel of one of the four boxes is left as it was, whatever the
    recognizer returns. *)
Theorem scan_stigmata_screen_frame
    (GetUTF8Text : mem -> Z -> Z -> Z -> Z -> Z -> string) (past_end : string -> ascii)
    (State : state_t) (RefFrame : mem) (a : Z) :
  ~ in_box (Width State) NameBox a ->
  Forall (fun Box => ~ in_box (Width State) Box a) StigmataBoxes ->
  snd (scan_stigmata_screen GetUTF8Text past_end State RefFrame) a = RefFrame a.
Proof.
  intros Hname Hboxes.
  inversion Hboxes as [|? ? H1 Hboxes1]; subst.
  inversion Hboxes1 as [|? ? H2 Hboxes2]; subst.
  inversion Hboxes2 as [|? ? H3 _]; subst.
  unfold in_box in Hname, H1, H2, H3. cbn [NameBox X Y RWidth RHeight] in Hname, H1, H2, H3.
  unfold scan_stigmata_screen.
  destruct State as [W H Ev HS HL SI LI]. cbn [Width] in *.
  cbv beta iota zeta delta [fold_left add_event set_Events set_StigmataFrameIndex fst snd
    Width Height Events HadStigmataScreenIndicator HadLineupScreenIndicator
    StigmataFrameIndex LineupFrameIndex X Y].
  rewrite !Z.add_0_l.
  rewrite change_contrast_unvisited by exact H3.
  rewrite invert_image_unvisited by exact H3.
  rewrite change_contrast_unvisited by exact H2.
  rewrite invert_image_unvisited by exact H2.
  rewrite change_contrast_unvisited by exact H1.
  rewrite invert_image_unvisited by exact H1.
  rewrite to_grayscale_unvisited by exact Hname.
  rewrite invert_image_unvisited by exact Hname.
  now rewrite change_contrast_unvisited by exact Hname.
Qed.

Lemma scan_stigmata_screen_frame_witness :
  snd (scan_stigmata_screen reads_Kiana zero_past (initial_state false) white) 0 = white 0.
Proof.
  apply scan_stigmata_screen_frame.
  - intros (y & x & c & Hy & Hx & Hc & H).
    cbn [Width initial_state NameBox X Y RWidth RHeight] in H, Hy, Hx. lia.
  - repeat constructor; intros (y & x & c & Hy & Hx & Hc & H);
      cbn [Width initial_state X Y RWidth RHeight] in H, Hy, Hx; lia.
Defined.
